(** * The classic Disco worker: task pipeline

    A shallow embedding of [lib/disco/worker/classic/worker.py]
    ([Worker.run], [Worker.map], [Worker.reduce], [Worker.sort],
    [Worker.status_iter], [ClassicFile]) and the properties of the
    task pipeline that follow from it.

    Python code with effects is written in a small monad [M]: a
    computation takes the state of the user-visible world, returns the
    events it performed (calls of user functions, status messages,
    writes to output sinks), the new world and either a value or the
    exception that left it.  The functions of a job that are handed
    the generator of the entries are trees of what they do with it,
    run against the one generator object of the task; the buffers of
    the combiner are a dict in insertion order. *)

From stdpp Require Import base option list strings pretty gmap fin_maps.
From Stdlib Require Import ZArith Lia Ascii.

Local Open Scope Z_scope.

(** ** Python values the pipeline looks at *)

(** [bool(x)] for an option that is [None] or an integer. *)
Definition truthy_int (x : option Z) : bool :=
  match x with
  | None => false
  | Some z => negb (z =? 0)
  end.

(** [template % arg] for a template with one [%s] conversion: the first
    [%s] is replaced by the argument.  Both call sites pass a literal
    template with exactly one [%s]. *)
Fixpoint percent (template arg : string) : string :=
  match template with
  | EmptyString => EmptyString
  | String c rest =>
      match rest with
      | String c' rest' =>
          if (Ascii.eqb c "%"%char && Ascii.eqb c' "s"%char)%bool then arg +:+ rest'
          else String c (percent rest arg)
      | EmptyString => String c EmptyString
      end
  end.

(** [str(i)] of an integer. *)
Definition str (i : Z) : string := pretty i.

(** ** The monad of Python code

    [Ev] are the events a computation performs, [U] is the state of
    everything user code can change (the params object included), [E]
    the exceptions user code and collaborators raise. *)

Section Monad.

Variables Ev U E : Type.

Inductive exn :=
| NotImplementedError (msg : string)
| AssertionError (msg : string)
| TypeError
| ValueError
| AttributeError
| Raised (e : E).

Inductive outcome (A : Type) :=
| Ok (a : A)
| Raise (e : exn).

(** What a call of user code comes to: it returns, or raises an
    exception of its own. *)
Inductive returned (A : Type) :=
| Returns (a : A)
| Raises (e : E).

Definition outcome_of {A} (r : returned A) : outcome A :=
  match r with
  | Returns _ a => Ok A a
  | Raises _ e => Raise A (Raised e)
  end.

Record res (A : Type) := Res {
  trace : list Ev;
  world : U;
  value : outcome A
}.

Definition M (A : Type) : Type := U -> res A.

Definition ret {A} (a : A) : M A := fun u => Res A [] u (Ok A a).

Definition raise {A} (e : exn) : M A := fun u => Res A [] u (Raise A e).

Definition bind {A B} (m : M A) (f : A -> M B) : M B := fun u =>
  match m u with
  | Res _ t u1 (Ok _ a) =>
      match f a u1 with
      | Res _ t2 u2 r => Res B (t ++ t2) u2 r
      end
  | Res _ t u1 (Raise _ e) => Res B t u1 (Raise B e)
  end.

Definition emit (ev : Ev) : M unit := fun u => Res unit [ev] u (Ok unit tt).

(** A call of user code: the event of the call, then what the code
    does to the world and what it returns or raises. *)
Definition call {A} (ev : Ev) (f : U -> U * returned A) : M A := fun u =>
  Res A [ev] (fst (f u)) (outcome_of (snd (f u))).

(** A computation that first looks at the world. *)
Definition with_world {A} (f : U -> M A) : M A := fun u => f u u.

(** [for x in l: s = f(s, x)] *)
Fixpoint foldM {A S} (f : S -> A -> M S) (l : list A) (s : S) : M S :=
  match l with
  | [] => ret s
  | x :: l' => bind (f s x) (foldM f l')
  end.

End Monad.

Arguments NotImplementedError {E} msg.
Arguments AssertionError {E} msg.
Arguments TypeError {E}.
Arguments ValueError {E}.
Arguments AttributeError {E}.
Arguments Raised {E} e.
Arguments Ok {E A} a.
Arguments Raise {E A} e.
Arguments Returns {E A} a.
Arguments Raises {E A} e.
Arguments outcome_of {E A} r.
Arguments Res {Ev U E A} trace world value.
Arguments trace {Ev U E A} r.
Arguments world {Ev U E A} r.
Arguments value {Ev U E A} r.
Arguments ret {Ev U E A} a _.
Arguments raise {Ev U E A} e _.
Arguments bind {Ev U E A B} m f _.
Arguments emit {Ev U E} ev _.
Arguments call {Ev U E A} ev f _.
Arguments with_world {Ev U E A} f _.
Arguments foldM {Ev U E A S} f l s _.

Declare Scope py_scope.
Delimit Scope py_scope with py.
Notation "x <- m ;; k" := (bind m (fun x => k))
  (at level 100, m at next level, right associativity) : py_scope.
Notation "m ;;; k" := (bind m (fun _ => k))
  (at level 100, right associativity) : py_scope.
Local Open Scope py_scope.

(** A Python function with its declared parameter count, what
    [util.argcount] returns.  Calling it with another number of
    arguments raises [TypeError]. *)
Record pyfunc (Body : Type) := PyFunc {
  argcount : nat;
  body : Body
}.
Arguments PyFunc {Body} argcount body.
Arguments argcount {Body} p.
Arguments body {Body} p.

(** What a configuration key for a job function holds: [None], a
    function, or the dict of files of an external program. *)
Inductive slot (F : Type) :=
| Absent
| Native (f : F)
| ExternalProgram.
Arguments Absent {F}.
Arguments Native {F} f.
Arguments ExternalProgram {F}.

(** [bool(x)] of such a value; the dict of an external program holds
    its files and is not empty. *)
Definition truthy_slot {F} (x : slot F) : bool :=
  match x with
  | Absent => false
  | _ => true
  end.

Inductive task_mode := MapMode | ReduceMode.

Definition mode_name (m : task_mode) : string :=
  match m with
  | MapMode => "map"
  | ReduceMode => "reduce"
  end.

Inductive writer := ByPipeline | ByFunction.

(** ** The task pipeline *)

(** A Python dict whose keys are partition names: its items in the
    order in which the keys were inserted. *)
Definition dict (A : Type) : Type := list (option string * A).

(** [d.get(k)]: [None] when [k not in d]. *)
Fixpoint dict_get {A} (d : dict A) (k : option string) : option A :=
  match d with
  | [] => None
  | (k', v) :: d' => if decide (k' = k) then Some v else dict_get d' k
  end.

(** [d[k] = v]: the value of a key the dict has is replaced where it
    is, a new key is inserted after the others. *)
Fixpoint dict_set {A} (d : dict A) (k : option string) (v : A) : dict A :=
  match d with
  | [] => [(k, v)]
  | (k', v') :: d' =>
      if decide (k' = k) then (k, v) :: d' else (k', v') :: dict_set d' k v
  end.

Section Pipeline.

(** Keys, values, input entries, the params object, the buffer a
    combiner keeps for a partition: all opaque to the pipeline. *)
Context {K V Entry Params Buf U E : Type}.

Inductive event :=
| EStatus (msg : string)
| EInit (mode : task_mode) (p : Params)
| EMap (entry : Entry) (p : Params)
| EPartition (key : K) (partitions : Z) (p : Params)
| ECombiner (key : option K) (val : option V) (part : option string)
            (buf : Buf) (final : bool) (p : Params)
| EAdd (w : writer) (part : option string) (record : K * V)
| EReduce2 (p : Params)
| EReduce3 (p : Params)
| EExternalPrepare (p : Params) (mode : task_mode)
| EExternalClose.

(** *** User functions *)

(** What a call of [next()] on the entries generator comes to for the
    code that makes it: an entry, [StopIteration], or the exception
    that the notification channel raised inside the generator. *)
Inductive answer :=
| Item (entry : Entry)
| StopIteration
| Failed (e : E).

(** A function that is handed the entries generator ([map_init],
    [reduce_init], [reduce]), as the tree of what it does: it returns,
    raises, calls [next()] on the generator and goes on according to
    the answer (an exception of the generator it may catch or let
    pass), hands a record on and goes on, or looks at the world and
    changes it.  A function reads the entries one by one as it runs,
    so that what it hands on and what the generator reports
    interleave; a loop over the entries is a tree as deep as the
    input is long. *)
Inductive proc (Y : Type) :=
| Return
| Throw (e : E)
| Next (k : answer -> proc Y)
| Yield (y : Y) (k : proc Y)
| World (f : U -> U) (k : U -> proc Y).
Global Arguments Return {Y}.
Global Arguments Throw {Y} e.
Global Arguments Next {Y} k.
Global Arguments Yield {Y} y k.
Global Arguments World {Y} f k.

(** Such a function of the params.  What a reduce function hands on
    are records: those of the iterable it returns, or those it adds to
    the output it is passed.  An init function hands nothing on. *)
Definition iter_fn (Y : Type) : Type := Params -> proc Y.

(** [combiner(key, value, buffer, done, params)]: the records it
    returns ([None] for none) and what it leaves in the buffer. *)
Definition combiner_fn : Type :=
  option K -> option V -> Buf -> bool -> Params -> U ->
  U * returned E (option (list (K * V)) * Buf).

(** [map(entry, params)] *)
Definition map_fn : Type :=
  Entry -> Params -> U -> U * returned E (list (K * V)).

(** [reduce(entries, params)] and [reduce(entries, out, params)]: the
    body of a function of two parameters hands on the records of the
    iterable it returns, the body of a function of three parameters
    the records it adds to [out]. *)
Definition reduce_fn : Type := pyfunc (iter_fn (K * V)).

(** The configuration, [self[key]]. *)
Record Worker := {
  save : bool;
  partitions : option Z;
  map_ : slot map_fn;
  map_init : iter_fn Empty_set;
  combiner : option combiner_fn;
  partition : K -> Z -> Params -> U -> U * returned E Z;
  reduce : slot reduce_fn;
  reduce_init : iter_fn Empty_set;
  merge_partitions : bool;
  sort : bool;
  sort_buffer_size : string;
  status_interval : option Z;
  params : Params;
  ext_params : Params;
  version : string
}.

(** The task: [task.mode], [task.taskid], what [task.input] yields in
    a map task, [[input(id) for id in inputs()]] of a reduce task,
    and [task.path]. *)
Record Task := {
  mode : task_mode;
  taskid : Z;
  input : list Entry;
  inputs : list (list string);
  path : string -> string
}.

(** The state of a run: the module's global [Task], which the
    accessors of the module read, and the world of user code. *)
Record module_state := ModuleState {
  global_Task : option Task;
  user_world : U
}.

(** What the module takes from outside: the notification channel
    [events.Status(message).send()], which accepts a message or
    raises; [disco.util.ispartitioned], [disco.util.inputlist],
    [disco.util.shuffled], [disco.task.SerialInput] read through the
    opener and [disk_sort] of [disco.worker.classic.func], an input
    being the list of its replica locations;
    [external.prepare(params, mode)], which gives the function that
    talks to the external program; [{}], the buffer of a partition
    before its first record; and the interpreter's [dict.items()],
    which gives the items of a dict, each once, in the order of the
    hash table (Python 2) or in the order of insertion (Python 3.7
    and later). *)
Record Env := {
  send : string -> option E;
  ispartitioned : list (list string) -> bool;
  inputlist : list (list string) -> option string -> list (list string);
  shuffled : list (list string) -> list (list string);
  SerialInput : list (list string) -> list Entry;
  disk_sort : list Entry -> string -> string -> list Entry;
  external_map : Params -> map_fn;
  external_reduce : Params -> reduce_fn;
  empty_buf : Buf;
  dict_items : dict Buf -> list (option string * Buf);
  dict_items_once : forall d, dict_items d ≡ₚ d
}.

Variable env : Env.

Local Abbreviation RunM := (M event module_state E).
Local Abbreviation M := (M event U E).

(** *** [status] *)

Definition status (message : string) : M unit := fun u =>
  Res [EStatus message] u
      match send env message with
      | None => Ok tt
      | Some e => Raise (Raised e)
      end.

(** *** [Worker.status_iter]

    The generator object: its local variables and whether it has
    returned.  [enumerate] hands out the index [n + 1] next. *)
Record status_gen := StatusGen {
  gen_interval : option Z;
  gen_template : string;
  gen_n : Z;
  gen_iterator : list Entry;
  gen_exhausted : bool
}.

Definition status_iter (status_interval : option Z) (iterator : list Entry)
    (message_template : string) : status_gen :=
  StatusGen status_interval message_template (-1) iterator false.

(** [status_interval and (n + 1) % status_interval == 0] *)
Definition report_due (status_interval : option Z) (n : Z) : bool :=
  truthy_int status_interval && ((n + 1) mod default 0 status_interval =? 0).

(** The body of the loop of [status_iter] up to its [yield]. *)
Definition report (status_interval : option Z) (message_template : string)
    (n : Z) : M unit :=
  if report_due status_interval n
  then status (percent message_template (str (n + 1)))
  else ret tt.

(** The statement after the loop. *)
Definition report_done (message_template : string) (n : Z) : M unit :=
  status ("Done: " +:+ percent message_template (str (n + 1))).

(** One [next()] on the generator: it runs to the next [yield] or to
    its end. *)
Definition next (g : status_gen) : M (option Entry * status_gen) :=
  if gen_exhausted g then ret (None, g)
  else
    match gen_iterator g with
    | item :: rest =>
        let n := gen_n g + 1 in
        report (gen_interval g) (gen_template g) n ;;;
        ret (Some item, StatusGen (gen_interval g) (gen_template g) n rest false)
    | [] =>
        report_done (gen_template g) (gen_n g) ;;;
        ret (None, StatusGen (gen_interval g) (gen_template g) (gen_n g) [] true)
    end.

(** [for item in g: s = body(item, s)], by recursion on what is left
    of the underlying iterator. *)
Fixpoint for_items {S} (status_interval : option Z) (message_template : string)
    (items : list Entry) (n : Z) (body : Entry -> S -> M S) (s : S) : M S :=
  match items with
  | item :: rest =>
      let n := n + 1 in
      report status_interval message_template n ;;;
      s' <- body item s ;;
      for_items status_interval message_template rest n body s'
  | [] =>
      report_done message_template n ;;;
      ret s
  end.

Definition for_in {S} (g : status_gen) (body : Entry -> S -> M S) (s : S) : M S :=
  if gen_exhausted g then ret s
  else for_items (gen_interval g) (gen_template g) (gen_iterator g) (gen_n g) body s.

(** [list(g)] *)
Definition drain (g : status_gen) : M (list Entry) :=
  for_in g (fun item acc => ret (acc ++ [item])) [].

(** [k] calls of [next()] in a row by code that lets an exception of
    the generator pass; a call after the end of input gets
    [StopIteration] and changes nothing. *)
Fixpoint pull (k : nat) (g : status_gen) : M status_gen :=
  match k with
  | O => ret g
  | S k' => r <- next g ;; pull k' (snd r)
  end.

(** A generator that an exception has left: it has returned, and
    every later [next()] gets [StopIteration]. *)
Definition stopped (g : status_gen) : status_gen :=
  StatusGen (gen_interval g) (gen_template g) (gen_n g) (gen_iterator g) true.

(** [next()] as the user code that calls it sees it: the exception of
    the notification channel is an answer like the others. *)
Definition next_caught (g : status_gen) : M (answer * status_gen) := fun u =>
  let r := next g u in
  Res (trace r) (world r)
      match value r with
      | Ok (Some item, g') => Ok (Item item, g')
      | Ok (None, g') => Ok (StopIteration, g')
      | Raise (Raised e) => Ok (Failed e, stopped g)
      | Raise e => Raise e
      end.

(** The run of a function on the generator [g]: [out] is what handing
    a record on comes to.  It gives the generator as the function
    left it. *)
Fixpoint run_proc {Y} (out : Y -> event) (f : proc Y) (g : status_gen)
    : M status_gen :=
  match f with
  | Return => ret g
  | Throw e => raise (Raised e)
  | Next k => a <- next_caught g ;; run_proc out (k (fst a)) (snd a)
  | Yield y k => emit (out y) ;;; run_proc out k g
  | World f k => fun u => run_proc out (k u) g (f u)
  end.

(** The call of such a function: the event of the call, then its
    run. *)
Definition call_iter {Y} (ev : event) (out : Y -> event) (f : proc Y)
    (g : status_gen) : M status_gen :=
  emit ev ;;; run_proc out f g.

(** An init function hands nothing on. *)
Definition no_yield (y : Empty_set) : event := match y with end.

(** *** [Worker.map] *)

(** [output(part).add] of the unpacked record. *)
Definition add (part : option string) (record : K * V) : M unit :=
  emit (EAdd ByPipeline part record).

(** [for record in records:] add it to [output(part)]. *)
Definition add_all (part : option string) (records : list (K * V)) : M unit :=
  foldM (fun _ record => add part record) records tt.

(** [self['map'](entry, params)] *)
Definition call_map (w : Worker) (entry : Entry) (p : Params) : M (list (K * V)) :=
  match map_ w with
  | Native f => call (EMap entry p) (f entry p)
  | _ => raise TypeError
  end.

(** [self['combiner'](key, val, buf, done, params) or ()] on the
    buffer of [part]. *)
Definition call_combiner c (key : option K) (val : option V)
    (part : option string) (buf : Buf) (final : bool) (p : Params)
    : M (list (K * V) * Buf) :=
  r <- call (ECombiner key val part buf final p) (c key val buf final p) ;;
  ret (default [] (fst r), snd r).

(** The body of the inner loop, for one record of the map function. *)
Definition map_record (w : Worker) (p : Params)
    (bufs : dict Buf) (record : K * V) : M (dict Buf) :=
  let '(key, val) := record in
  part <- (if truthy_int (partitions w)
           then
             r <- call (EPartition key (default 0 (partitions w)) p)
                       (partition w key (default 0 (partitions w)) p) ;;
             ret (Some (str r))
           else ret None) ;;
  match combiner w with
  | Some c =>
      let bufs :=
        match dict_get bufs part with
        | None => dict_set bufs part (empty_buf env)
        | Some _ => bufs
        end in
      r <- call_combiner c (Some key) (Some val) part
                         (default (empty_buf env) (dict_get bufs part)) false p ;;
      add_all part (fst r) ;;;
      ret (dict_set bufs part (snd r))
  | None =>
      add part (key, val) ;;;
      ret bufs
  end.

(** The body of the outer loop, for one entry. *)
Definition map_entry (w : Worker) (p : Params) (entry : Entry)
    (bufs : dict Buf) : M (dict Buf) :=
  records <- call_map w entry p ;;
  foldM (map_record w p) records bufs.

(** The body of the last loop, for one buffer. *)
Definition flush (w : Worker) (p : Params) (_ : unit)
    (item : option string * Buf) : M unit :=
  match combiner w with
  | Some c =>
      r <- call_combiner c None None (fst item) (snd item) true p ;;
      add_all (fst item) (fst r)
  | None => raise TypeError
  end.

(** The function up to the end of the loop over the entries: it
    gives the buffers. *)
Definition map_input (w : Worker) (task : Task) (p : Params) : M (dict Buf) :=
  let entries := status_iter (status_interval w) (input task)
                             "%s entries mapped" in
  entries <- call_iter (EInit MapMode p) no_yield (map_init w p) entries ;;
  for_in entries (map_entry w p) [].

Definition Worker_map (w : Worker) (task : Task) (p : Params) : M unit :=
  if save w && truthy_int (partitions w) && negb (truthy_slot (reduce w))
  then raise (NotImplementedError
                "Storing partitioned outputs in DDFS is not yet supported")
  else
    bufs <- map_input w task p ;;
    foldM (flush w p) (dict_items env bufs) tt.

(** *** [Worker.sort] and [Worker.reduce] *)

Definition Worker_sort (w : Worker) (input : list Entry) (task : Task) : list Entry :=
  if sort w
  then disk_sort env input (path task "sort.dl") (sort_buffer_size w)
  else input.

(** The partition selector handed to [inputlist]. *)
Definition reduce_partition (w : Worker) (task : Task) : option string :=
  if ispartitioned env (inputs task) && negb (merge_partitions w)
  then Some (str (taskid task))
  else None.

(** [ordered], the input of the reduce. *)
Definition reduce_ordered (w : Worker) (task : Task) : list Entry :=
  Worker_sort w
    (SerialInput env
       (shuffled env (inputlist env (inputs task) (reduce_partition w task))))
    task.

(** [for record in f(entries, params): output.add] of the unpacked
    record, for a function of two parameters: every record the
    function hands on is written by the pipeline as it comes. *)
Definition call_reduce2 (f : reduce_fn)
    (entries : status_gen) (p : Params) : M unit :=
  if (argcount f =? 2)%nat
  then call_iter (EReduce2 p) (EAdd ByPipeline None) (body f p) entries ;;; ret tt
  else raise TypeError.

(** [f(entries, output, params)] for a function of three parameters:
    what the function hands on it adds to [output] itself. *)
Definition call_reduce3 (f : reduce_fn)
    (entries : status_gen) (p : Params) : M unit :=
  if (argcount f =? 3)%nat
  then call_iter (EReduce3 p) (EAdd ByFunction None) (body f p) entries ;;; ret tt
  else raise TypeError.

(** The function from the call of the init function on, on the
    generator [entries]. *)
Definition reduce_entries (w : Worker) (entries : status_gen) (p : Params)
    : M unit :=
  entries <- call_iter (EInit ReduceMode p) no_yield (reduce_init w p) entries ;;
  match reduce w with
  | Native f =>
      if (argcount f <? 3)%nat
      then call_reduce2 f entries p
      else call_reduce3 f entries p
  | _ => raise AttributeError
  end.

Definition Worker_reduce (w : Worker) (task : Task) (p : Params) : M unit :=
  let ordered := reduce_ordered w task in
  let entries := status_iter (status_interval w) ordered "%s entries reduced" in
  reduce_entries w entries p.

(** *** [Worker.run] *)

Definition set_map (w : Worker) f : Worker :=
  {| save := save w; partitions := partitions w; map_ := f;
     map_init := map_init w; combiner := combiner w;
     partition := partition w; reduce := reduce w;
     reduce_init := reduce_init w; merge_partitions := merge_partitions w;
     sort := sort w; sort_buffer_size := sort_buffer_size w;
     status_interval := status_interval w; params := params w;
     ext_params := ext_params w; version := version w |}.

Definition set_reduce (w : Worker) f : Worker :=
  {| save := save w; partitions := partitions w; map_ := map_ w;
     map_init := map_init w; combiner := combiner w;
     partition := partition w; reduce := f;
     reduce_init := reduce_init w; merge_partitions := merge_partitions w;
     sort := sort w; sort_buffer_size := sort_buffer_size w;
     status_interval := status_interval w; params := params w;
     ext_params := ext_params w; version := version w |}.

Definition set_partitions (w : Worker) n : Worker :=
  {| save := save w; partitions := n; map_ := map_ w;
     map_init := map_init w; combiner := combiner w;
     partition := partition w; reduce := reduce w;
     reduce_init := reduce_init w; merge_partitions := merge_partitions w;
     sort := sort w; sort_buffer_size := sort_buffer_size w;
     status_interval := status_interval w; params := params w;
     ext_params := ext_params w; version := version w |}.

(** [isinstance(self[task.mode], dict)] *)
Definition is_external (w : Worker) (m : task_mode) : bool :=
  match m with
  | MapMode => match map_ w with ExternalProgram => true | _ => false end
  | ReduceMode => match reduce w with ExternalProgram => true | _ => false end
  end.

(** [getattr(self, task.mode)(task, params)] *)
Definition dispatch (w : Worker) (task : Task) (p : Params) : M unit :=
  match mode task with
  | MapMode => Worker_map w task p
  | ReduceMode => Worker_reduce w task p
  end.

(** [global Task; Task = task] *)
Definition bind_Task (task : Task) : RunM unit := fun s =>
  Res [] (ModuleState (Some task) (user_world s)) (Ok tt).

(** A computation on the world of user code, in the state of a run:
    it leaves the global [Task] as it is. *)
Definition in_run {A} (m : M A) : RunM A := fun s =>
  let r := m (user_world s) in
  Res (trace r) (ModuleState (global_Task s) (world r)) (value r).

(** [running] is the version of the running interpreter,
    ['%s.%s' % sys.version_info[:2]].  Binding the required modules
    and the configured objects into the globals is left out, and so is
    [open_hook], which is run where [task.input] opens an input. *)
Definition Worker_run (running : string) (w : Worker) (task : Task) : RunM unit :=
  bind_Task task ;;;
  if negb (String.eqb (version w) running)
  then raise (AssertionError "Python version mismatch")
  else
    r <- (if is_external w (mode task)
          then
            emit (EExternalPrepare (ext_params w) (mode task)) ;;;
            ret (match mode task with
                 | MapMode => set_map w (Native (external_map env (ext_params w)))
                 | ReduceMode => set_reduce w (Native (external_reduce env (ext_params w)))
                 end, ext_params w)
          else ret (w, params w)) ;;
    in_run (dispatch (fst r) task (snd r)) ;;;
    emit EExternalClose.

End Pipeline.

(** ** [ClassicFile]: the stream chain *)

Section Streams.

(** What tells handles apart, the params object, the world and the
    exceptions of user code. *)
Context {H Params U E : Type}.

(** An object a stream function returns: [close] is its method of
    that name, if [hasattr(fd, 'close')]. *)
Record handle := Handle {
  handle_id : H;
  close : option (U -> U * returned E unit)
}.

(** A value of [fd]: [None] or a handle. *)
Definition pyfd : Type := option handle.

(** What a stream function returns: a handle, or a tuple. *)
Inductive stream_result :=
| Plain (fd : pyfd)
| Tuple2 (fd : pyfd) (url : string)
| Tuple3 (fd : pyfd) (size : option Z) (url : string)
| TupleOther.

(** [stream(fd, size, url)] or [stream(fd, size, url, params)]: the
    last argument of the body is the params when they are passed. *)
Definition stream_fn : Type :=
  pyfunc (pyfd -> option Z -> string -> option Params -> U ->
          U * returned E stream_result).

Inductive stream_event :=
| EStream (fd : option H) (size : option Z) (url : string)
          (maybe_params : option Params)
| EClose (fd : H).

Local Abbreviation M := (M stream_event U E).

Record ClassicFile := { fds : list pyfd }.

(** The running values of the loop of [__init__]. *)
Record chain_state := ChainState {
  cs_fds : list pyfd;
  cs_fd : pyfd;
  cs_size : option Z;
  cs_url : string
}.

(** [stream(fd, size, url, *maybe_params)] *)
Definition call_stream (stream : stream_fn) (fd : pyfd) (size : option Z)
    (url : string) (maybe_params : option Params) : M stream_result :=
  if (argcount stream =? match maybe_params with Some _ => 4 | None => 3 end)%nat
  then call (EStream (handle_id <$> fd) size url maybe_params)
            (body stream fd size url maybe_params)
  else raise TypeError.

(** The body of the loop of [__init__]. *)
Definition ClassicFile_stage (params : Params) (st : chain_state)
    (stream : stream_fn) : M chain_state :=
  let maybe_params := if (argcount stream =? 4)%nat then Some params else None in
  r <- call_stream stream (cs_fd st) (cs_size st) (cs_url st) maybe_params ;;
  match r with
  | Plain fd => ret (ChainState (cs_fds st ++ [fd]) fd (cs_size st) (cs_url st))
  | Tuple3 fd size url => ret (ChainState (cs_fds st ++ [fd]) fd size url)
  | Tuple2 fd url => ret (ChainState (cs_fds st ++ [fd]) fd (cs_size st) url)
  | TupleOther => raise ValueError
  end.

Definition ClassicFile_init (url : string) (streams : list stream_fn)
    (params : Params) (fd : pyfd) (size : option Z) : M ClassicFile :=
  st <- foldM (ClassicFile_stage params) streams (ChainState [] fd size url) ;;
  ret {| fds := cs_fds st |}.

(** [if hasattr(fd, 'close'): fd.close()] *)
Definition close_fd (_ : unit) (fd : pyfd) : M unit :=
  match fd with
  | Some h =>
      match close h with
      | Some c => call (EClose (handle_id h)) c
      | None => ret tt
      end
  | None => ret tt
  end.

Definition ClassicFile_close (self : ClassicFile) : M unit :=
  foldM close_fd (rev (fds self)) tt.

End Streams.

(** ** [Worker.opener] and [Worker.open_hook] *)

Section Opener.

Context {H Params U E : Type}.

Local Abbreviation pyfd := (@pyfd H U E).
Local Abbreviation stream_fn := (@stream_fn H Params U E).
Local Abbreviation M := (M (@stream_event H Params) U E).

(** The static method [open_hook(file, size, url)]: [return file]. *)
Definition open_hook : stream_fn :=
  PyFunc 3 (fun file size url _ u => (u, Returns (Plain file))).

(** The [open_hook] that [run] binds to the worker:
    [status("Input is %s" % (util.format_size(size)))], then
    [return file].  [input_status size] is that call of [status]: what
    it does to the world, and whether the channel raises. *)
Definition run_open_hook (input_status : option Z -> U -> U * returned E unit)
    : stream_fn :=
  PyFunc 3 (fun file size url _ u =>
              match snd (input_status size u) with
              | Returns _ => (fst (input_status size u), Returns (Plain file))
              | Raises e => (fst (input_status size u), Raises e)
              end).

(** The keys of the configuration that hold stream functions, and the
    [open_hook] of the worker.  An entry of an input chain, like the
    reader, may be [None]. *)
Record StreamKeys := {
  map_input_stream : list (option stream_fn);
  map_reader : option stream_fn;
  map_output_stream : list stream_fn;
  reduce_input_stream : list (option stream_fn);
  reduce_reader : option stream_fn;
  reduce_output_stream : list stream_fn;
  self_open_hook : stream_fn
}.

Inductive direction := DirIn | DirOut.

(** [self['%s_input_stream' % mode]], [self['%s_reader' % mode]] and
    [self['%s_output_stream' % mode]]. *)
Definition input_stream_of (self : StreamKeys) (mode : task_mode)
    : list (option stream_fn) :=
  match mode with
  | MapMode => map_input_stream self
  | ReduceMode => reduce_input_stream self
  end.

Definition reader_of (self : StreamKeys) (mode : task_mode) : option stream_fn :=
  match mode with
  | MapMode => map_reader self
  | ReduceMode => reduce_reader self
  end.

Definition output_stream_of (self : StreamKeys) (mode : task_mode)
    : list stream_fn :=
  match mode with
  | MapMode => map_output_stream self
  | ReduceMode => reduce_output_stream self
  end.

(** [streams] of [opener]: for the direction ['in'],
    [filter(None, chain(input_stream, (reader, self.open_hook)))],
    otherwise the output stream. *)
Definition opener_streams (self : StreamKeys) (mode : task_mode)
    (dir : direction) : list stream_fn :=
  match dir with
  | DirIn =>
      omap id (input_stream_of self mode
               ++ [reader_of self mode; Some (self_open_hook self)])
  | DirOut => output_stream_of self mode
  end.

(** [opener(mode, direction, params)], the function [open]. *)
Definition opener (self : StreamKeys) (mode : task_mode) (dir : direction)
    (params : Params) (url : string) : M ClassicFile :=
  ClassicFile_init url (opener_streams self mode dir) params None None.

(** [self.fds[-1]], the handle [__iter__] iterates and the pipeline
    writes to; [None] when there is no handle, where Python raises
    [IndexError]. *)
Definition fds_last (self : @ClassicFile H U E) : option pyfd :=
  last (fds self).

End Opener.

(** ** [Params] *)

Section ParamsClass.

(** The values of attributes, and what [util.pack] makes of them. *)
Context {Val Packed : Type}.

(** [util.pack] and [util.unpack]. *)
Variable pack : Val -> Packed.
Variable unpack : Packed -> Val.

(** [k.startswith('_')] *)
Definition is_private (k : string) : bool := String.prefix "_" k.

(** [self.__dict__.update(kwargs)] *)
Definition dict_update {A} (d kwargs : gmap string A) : gmap string A :=
  kwargs ∪ d.

(** [Params] called with the keyword arguments [kwargs]: the
    [__dict__] of the new object. *)
Definition Params_init (kwargs : gmap string Val) : gmap string Val :=
  dict_update ∅ kwargs.

(** [__getstate__] on the [__dict__] of the object. *)
Definition Params_getstate (d : gmap string Val) : gmap string Packed :=
  pack <$> filter (fun kv => is_private (fst kv) = false) d.

(** [__setstate__]: [self.__dict__[k] = util.unpack(v)] for every item
    of the state. *)
Definition Params_setstate (state : gmap string Packed) (d : gmap string Val)
    : gmap string Val :=
  dict_update d (unpack <$> state).

End ParamsClass.

(** ** Notions the properties are stated with *)

(** Whether the progress reporter owes a periodic notification at the
    item of 1-based index [i]: the interval is positive and divides
    [i]. *)
Definition notified (status_interval : option Z) (i : Z) : bool :=
  match status_interval with
  | Some k => (1 <=? k) && (i mod k =? 0)
  | None => false
  end.

(** The 1-based indices up to [total] at which a notification is
    owed. *)
Definition notified_indices (status_interval : option Z) (total : Z) : list Z :=
  filter (fun i => notified status_interval i = true) (seqZ 1 total).

(** The messages the progress reporter owes for an input of [total]
    items, in the order it sends them: the periodic ones, then the
    final one. *)
Definition notifications (status_interval : option Z) (template : string)
    (total : Z) : list string :=
  map (fun i => percent template (str i)) (notified_indices status_interval total)
  ++ ["Done: " +:+ percent template (str total)].

(** The generator of [status_iter] after it has yielded the first [i]
    of [items]. *)
Definition gen_after {Entry} (status_interval : option Z) (template : string)
    (items : list Entry) (i : nat) : status_gen :=
  StatusGen status_interval template (Z.of_nat i - 1) (drop i items) false.

(** The generator after it has returned. *)
Definition gen_finished {Entry} (status_interval : option Z) (template : string)
    (items : list Entry) : @status_gen Entry :=
  StatusGen status_interval template (Z.of_nat (length items) - 1) [] true.

Section Post.

Context {Ev U E : Type}.

(** Every run of [m] has a trace and an outcome that [Q] relates. *)
Definition post {A} (m : M Ev U E A) (Q : list Ev -> outcome E A -> Prop) : Prop :=
  forall u, Q (trace (m u)) (value (m u)).

(** Every event of every run of [m] is in [P], and an exception that
    leaves it is in [R]. *)
Definition inv (P : Ev -> Prop) (R : exn E -> Prop) {A} (m : M Ev U E A) : Prop :=
  post m (fun t r => Forall P t /\ forall e, r = Raise e -> R e).

End Post.

Section TraceNotions.

Context {K V Entry Params Buf U E : Type}.

Local Abbreviation event := (@event K V Entry Params Buf).

(** The flushes in a trace: the partition and the buffer of every
    call of the combiner with [done=True]. *)
Definition final_flushes (t : list event) : list (option string * Buf) :=
  omap (fun ev => match ev with
                  | ECombiner _ _ part buf true _ => Some (part, buf)
                  | _ => None
                  end) t.

(** The partitions that received a record: the partition of every
    call of the combiner with [done=False]. *)
Definition combined_parts (t : list event) : list (option string) :=
  omap (fun ev => match ev with
                  | ECombiner _ _ part _ false _ => Some part
                  | _ => None
                  end) t.

(** The entries the map function was called on. *)
Definition mapped_entries (t : list event) : list Entry :=
  omap (fun ev => match ev with
                  | EMap entry _ => Some entry
                  | _ => None
                  end) t.

(** The records the pipeline wrote, each with its sink. *)
Definition pipeline_adds (t : list event) : list (option string * (K * V)) :=
  omap (fun ev => match ev with
                  | EAdd ByPipeline part record => Some (part, record)
                  | _ => None
                  end) t.

(** The records the reduce function wrote to the sink it was
    handed. *)
Definition function_adds (t : list event) : list (option string * (K * V)) :=
  omap (fun ev => match ev with
                  | EAdd ByFunction part record => Some (part, record)
                  | _ => None
                  end) t.

(** The calls of the reduce function, each with the number of its
    arguments and the params it was passed. *)
Definition reduce_calls (t : list event) : list (nat * Params) :=
  omap (fun ev => match ev with
                  | EReduce2 p => Some (2%nat, p)
                  | EReduce3 p => Some (3%nat, p)
                  | _ => None
                  end) t.


Definition is_status (ev : event) : Prop :=
  match ev with
  | EStatus _ => True
  | _ => False
  end.

(** What can leave the loops of the map pipeline: an exception of
    user code or of a collaborator, or the [TypeError] of calling
    what is not a function. *)
Definition passed_on (e : exn E) : Prop :=
  match e with
  | Raised _ | TypeError => True
  | _ => False
  end.

(** The events of the map pipeline up to the end of the loop over
    the entries, for the configuration [w] and the params [p]. *)
Definition input_event (w : @Worker K V Entry Params Buf U E) (p : Params)
    (ev : event) : Prop :=
  match ev with
  | EStatus _ => True
  | EInit MapMode p' => p' = p
  | EMap _ p' => p' = p
  | EPartition _ n p' =>
      truthy_int (partitions w) = true /\ partitions w = Some n /\ p' = p
  | ECombiner (Some _) (Some _) part _ false p' =>
      (truthy_int (partitions w) = false -> part = None)
      /\ is_Some (combiner w) /\ p' = p
  | EAdd ByPipeline part _ =>
      truthy_int (partitions w) = false -> part = None
  | _ => False
  end.

(** An event of a pipeline, not of the preparation or the release of
    an external program. *)
Definition pipeline_event (ev : event) : Prop :=
  match ev with
  | EExternalPrepare _ _ | EExternalClose => False
  | _ => True
  end.

(** A status message the channel accepted, or an event that is not a
    status message. *)
Definition accepted (env : @Env K V Entry Params Buf U E) (ev : event) : Prop :=
  match ev with
  | EStatus message => send env message = None
  | _ => True
  end.

(** A run in which the channel accepted every status message, or
    which ended, with the exception of the channel, at the one it
    refused. *)
Definition stops_at_refusal (env : @Env K V Entry Params Buf U E) {A}
    (t : list event) (r : outcome E A) : Prop :=
  Forall (accepted env) t
  \/ exists t' message e,
       t = t' ++ [EStatus message]
       /\ Forall (accepted env) t'
       /\ send env message = Some e
       /\ r = Raise (Raised e).

(** Every run of [m] is such a run. *)
Definition refusal_stops (env : @Env K V Entry Params Buf U E) {A}
    (m : M event U E A) : Prop :=
  post m (stops_at_refusal env).





(** What is left of the input of a generator. *)
Definition remaining (g : @status_gen Entry) : list Entry :=
  if gen_exhausted g then [] else gen_iterator g.

(** The entries the init function of a map task leaves for the loop
    over the entries: none if it raises. *)
Definition init_left (env : @Env K V Entry Params Buf U E)
    (w : @Worker K V Entry Params Buf U E) (task : @Task Entry) (p : Params)
    (u : U) : list Entry :=
  match value (call_iter env (EInit MapMode p) no_yield (map_init w p)
                 (status_iter (status_interval w) (input task)
                              "%s entries mapped") u) with
  | Ok g => remaining g
  | Raise _ => []
  end.

(** The records a function hands on in its run on the generator [g]
    from the world [u], in order. *)
Fixpoint produced (env : @Env K V Entry Params Buf U E) {Y}
    (f : @proc Entry U E Y) (g : @status_gen Entry) (u : U) : list Y :=
  match f with
  | Return | Throw _ => []
  | Next k =>
      let r := next_caught env g u in
      match value r with
      | Ok (a, g') => produced env (k a) g' (world r)
      | Raise _ => []
      end
  | Yield y k => y :: produced env k g u
  | World f k => produced env (k u) g (f u)
  end.



(** Flushing the buffers [items] in turn from the world [u]: each
    step is one call [combiner(None, None, buf, True, params)] on a
    buffer, followed by the writes of the records it returned to the
    sink of the partition of that buffer; a call that raises ends the
    run. *)
Inductive flushed (c : @combiner_fn K V Params Buf U E) (p : Params) :
    list (option string * Buf) -> U -> list event -> U -> outcome E unit -> Prop :=
| flushed_nil u :
    flushed c p [] u [] u (Ok tt)
| flushed_cons part buf items u u' records buf' t u'' r :
    c None None buf true p u = (u', Returns (records, buf')) ->
    flushed c p items u' t u'' r ->
    flushed c p ((part, buf) :: items) u
            (ECombiner None None part buf true p
             :: map (EAdd ByPipeline part) (default [] records) ++ t)
            u'' r
| flushed_raise part buf items u u' e :
    c None None buf true p u = (u', Raises e) ->
    flushed c p ((part, buf) :: items) u
            [ECombiner None None part buf true p] u' (Raise (Raised e)).

End TraceNotions.

Section MoreNotions.

Context {K V Entry Params Buf U E : Type}.

Local Abbreviation event := (@event K V Entry Params Buf).

(** The params a call of a user function or of [external.prepare] was
    passed. *)
Definition passed_params (ev : event) : option Params :=
  match ev with
  | EInit _ p | EMap _ p | EPartition _ _ p | ECombiner _ _ _ _ _ p
  | EReduce2 p | EReduce3 p | EExternalPrepare p _ => Some p
  | _ => None
  end.

(** An event of a reduce pipeline: a status message, the call of the
    init or of the reduce function, or a write to the sink of
    partition [None]. *)
Definition reduce_event (ev : event) : Prop :=
  match ev with
  | EStatus _ | EInit ReduceMode _ | EReduce2 _ | EReduce3 _
  | EAdd _ None _ => True
  | _ => False
  end.

(** The sink a record of the map function goes to when there is no
    combiner: [str(partition(key, partitions, params))] for a
    partition function that returns [route key], [None] without a
    partition count. *)
Definition sink_of (partitions : option Z) (route : K -> Z) (key : K)
    : option string :=
  if truthy_int partitions then Some (str (route key)) else None.


(** What one record does to the buffers, for a combiner that leaves
    [step key val buf] in the buffer [buf]: the buffer of the record's
    sink, [empty] if there is none yet, is stepped. *)
Definition buffer_record (empty : Buf) (sink : K -> option string)
    (step : K -> V -> Buf -> Buf) (bufs : dict Buf)
    (record : K * V) : dict Buf :=
  dict_set bufs (sink (fst record))
           (step (fst record) (snd record)
                 (default empty (dict_get bufs (sink (fst record))))).

(** The buffers after the records [records], from no buffer. *)
Definition buffers_of (empty : Buf) (sink : K -> option string)
    (step : K -> V -> Buf -> Buf) (records : list (K * V)) : dict Buf :=
  foldl (buffer_record empty sink step) [] records.

End MoreNotions.

Section StreamNotions.

Context {H Params U E : Type}.

Local Abbreviation pyfd := (@pyfd H U E).
Local Abbreviation stream_fn := (@stream_fn H Params U E).
Local Abbreviation stream_event := (@stream_event H Params).

(** The handles of [fds] that have a close operation, in the order
    of [fds]. *)
Definition closable (fds : list pyfd) : list H :=
  omap (fun fd : pyfd =>
          match fd with
          | Some h => match close h with
                      | Some _ => Some (handle_id h)
                      | None => None
                      end
          | None => None
          end) fds.

(** What a stage hands on: its handle, and the size and the location
    it returned or else the running ones. *)
Definition handed_on (r : @stream_result H U E) (size : option Z) (url : string)
    : option (pyfd * option Z * string) :=
  match r with
  | Plain fd => Some (fd, size, url)
  | Tuple2 fd url' => Some (fd, size, url')
  | Tuple3 fd size' url' => Some (fd, size', url')
  | TupleOther => None
  end.

(** A chain built stage by stage: each stage is called with the
    handle of the stage before it (the raw handle for the first),
    the running size and the running location, and with the params
    exactly when it declares four parameters; the handle it returns
    is the next of the chain, and a size or a location it returns
    replaces the running one for the stages after it. *)
Inductive built (params : Params) :
    list stream_fn -> pyfd -> option Z -> string -> U ->
    list stream_event -> list pyfd -> U -> Prop :=
| built_nil fd size url u :
    built params [] fd size url u [] [] u
| built_cons stream streams fd size url u u1 r fd' size' url' t fds u' :
    (argcount stream = 3 \/ argcount stream = 4)%nat ->
    body stream fd size url
         (if (argcount stream =? 4)%nat then Some params else None) u
    = (u1, Returns r) ->
    handed_on r size url = Some (fd', size', url') ->
    built params streams fd' size' url' u1 t fds u' ->
    built params (stream :: streams) fd size url u
          (EStream (handle_id <$> fd) size url
                   (if (argcount stream =? 4)%nat then Some params else None)
           :: t)
          (fd' :: fds) u'.

(** Closing the handles [order] in turn from the world [u]: a value
    that is [None] or a handle without a close operation is skipped;
    a close operation that returns is followed by the teardown of the
    handles after it; a close operation that raises ends the
    teardown with its exception, and the handles after it are not
    closed. *)
Inductive torn_down :
    list pyfd -> U -> list stream_event -> U -> outcome E unit -> Prop :=
| torn_nil u :
    torn_down [] u [] u (Ok tt)
| torn_none order u t u' r :
    torn_down order u t u' r ->
    torn_down (None :: order) u t u' r
| torn_skip h order u t u' r :
    close h = None ->
    torn_down order u t u' r ->
    torn_down (Some h :: order) u t u' r
| torn_close h c order u u1 t u' r :
    close h = Some c ->
    c u = (u1, Returns tt) ->
    torn_down order u1 t u' r ->
    torn_down (Some h :: order) u (EClose (handle_id h) :: t) u' r
| torn_raise h c order u u1 e :
    close h = Some c ->
    c u = (u1, Raises e) ->
    torn_down (Some h :: order) u [EClose (handle_id h)] u1 (Raise (Raised e)).

End StreamNotions.

Section MoreStreamNotions.

Context {H Params U E : Type}.

(** A stage of three parameters that hands on the handle it was
    given whenever it returns, as [open_hook] does. *)
Definition passes_handle (stream : @stream_fn H Params U E) : Prop :=
  argcount stream = 3%nat
  /\ forall fd size url maybe_params u r,
       snd (body stream fd size url maybe_params u) = Returns r -> r = Plain fd.

(** The call of a stage. *)
Definition is_stream_call (ev : @stream_event H Params) : Prop :=
  match ev with
  | EStream _ _ _ _ => True
  | EClose _ => False
  end.

End MoreStreamNotions.

(** ** A word count, for examples

    Entries and keys are strings, values are integers, the params
    object is a string, a buffer holds the values combined so far, the
    world counts the calls of the map function, and exceptions are
    strings. *)

Module WordCount.

Abbreviation Env := (@Env string Z string string (list Z) nat string).
Abbreviation Worker := (@Worker string Z string string (list Z) nat string).
Abbreviation Task := (@Task string).
Abbreviation event := (@event string Z string string (list Z)).

(** An init function that does nothing. *)
Definition no_init {Y} : @iter_fn string string nat string Y := fun _ => Return.

(** A channel that accepts every message, and one that is down. *)
Definition channel_up (message : string) : option string := None.
Definition channel_down (message : string) : option string :=
  Some "channel unavailable".

(** A channel that refuses one message. *)
Definition channel_refusing (bad message : string) : option string :=
  if String.eqb message bad then Some "refused" else None.

(** An interpreter whose dicts keep the order of insertion. *)
Definition env_with (send : string -> option string) : Env :=
  {| send := send;
     ispartitioned := fun inputs => true;
     inputlist := fun inputs selector => inputs;
     shuffled := fun inputs => rev inputs;
     SerialInput := fun inputs => concat inputs;
     disk_sort := fun entries _ _ => entries;
     external_map := fun _ _ _ u => (u, Returns []);
     external_reduce := fun _ => PyFunc 2 no_init;
     empty_buf := [];
     dict_items := fun d => d;
     dict_items_once := fun d => Permutation_refl d |}.

Definition env : Env := env_with channel_up.

(** [map]: one record per word, and a word it cannot take. *)
Definition count_word (entry p : string) (u : nat)
    : nat * returned string (list (string * Z)) :=
  if String.eqb entry "?" then (S u, Raises "bad word")
  else (S u, Returns [(entry, 1)]).

(** [combiner]: keep the values, hand their sum on at the end. *)
Definition sum_combiner : @combiner_fn string Z string (list Z) nat string :=
  fun key val buf final p u =>
    if final
    then (u, Returns (Some [("total", foldr Z.add 0 buf)], buf))
    else (u, Returns (None, match val with Some v => v :: buf | None => buf end)).

(** [partition]: by the length of the key. *)
Definition by_length (key : string) (n : Z) (p : string) (u : nat)
    : nat * returned string Z :=
  (u, Returns (Z.of_nat (String.length key) mod n)).

(** [reduce] with two parameters: it reads all the entries and then
    returns one record with their number; it lets an exception of the
    generator pass.  The loop over the entries is unrolled [depth]
    times. *)
Fixpoint count_loop (depth : nat) (n : Z) : @proc string nat string (string * Z) :=
  Next (fun a =>
          match a with
          | Item _ =>
              match depth with
              | S depth' => count_loop depth' (n + 1)
              | O => Return
              end
          | StopIteration => Yield ("entries", n) Return
          | Failed e => Throw e
          end).

Definition count_entries : @iter_fn string string nat string (string * Z) :=
  fun _ => count_loop 8 0.

(** [reduce] as a generator: one record for every entry, handed on as
    soon as the entry is read. *)
Fixpoint echo_loop (depth : nat) : @proc string nat string (string * Z) :=
  Next (fun a =>
          match a with
          | Item entry =>
              Yield (entry, 1)
                    match depth with
                    | S depth' => echo_loop depth'
                    | O => Return
                    end
          | StopIteration => Return
          | Failed e => Throw e
          end).

Definition echo_entries : @iter_fn string string nat string (string * Z) :=
  fun _ => echo_loop 8.

(** [map_init] that looks at the first entry and swallows whatever
    [next()] raises. *)
Definition peek_init : @iter_fn string string nat string Empty_set :=
  fun _ => Next (fun _ => Return).

Definition worker : Worker :=
  {| save := false;
     partitions := Some 2;
     map_ := Native count_word;
     map_init := no_init;
     combiner := Some sum_combiner;
     partition := by_length;
     reduce := Native (PyFunc 2 count_entries);
     reduce_init := no_init;
     merge_partitions := false;
     sort := false;
     sort_buffer_size := "10%";
     status_interval := Some 2;
     params := "params";
     ext_params := "ext_params";
     version := "2.7" |}.

(** The same with a reduce function of three parameters, which
    writes that record itself. *)
Definition worker3 : Worker :=
  set_reduce worker (Native (PyFunc 3 count_entries)).

(** The same with a partition count of 0. *)
Definition worker0 : Worker := set_partitions worker (Some 0).

(** The same with the reduce function that is a generator. *)
Definition streaming : Worker := set_reduce worker (Native (PyFunc 2 echo_entries)).

(** The word count with the init function that swallows exceptions
    and a status message for every entry. *)
Definition peeking : Worker :=
  {| save := false;
     partitions := Some 2;
     map_ := Native count_word;
     map_init := peek_init;
     combiner := Some sum_combiner;
     partition := by_length;
     reduce := Native (PyFunc 2 count_entries);
     reduce_init := no_init;
     merge_partitions := false;
     sort := false;
     sort_buffer_size := "10%";
     status_interval := Some 1;
     params := "params";
     ext_params := "ext_params";
     version := "2.7" |}.

(** The state of the module before a run. *)
Definition fresh : @module_state string nat := ModuleState None 0%nat.

Definition map_task (input : list string) : Task :=
  {| mode := MapMode; taskid := 0; input := input; inputs := [];
     path := fun name => name |}.

Definition reduce_task (inputs : list (list string)) : Task :=
  {| mode := ReduceMode; taskid := 1; input := []; inputs := inputs;
     path := fun name => name |}.

(** Handles and stream functions of a chain of three stages: the
    second returns a new location, the third takes the params and
    returns a size too; the close of the second handle raises. *)
Abbreviation handle := (@handle string nat string).
Abbreviation stream_fn := (@stream_fn string string nat string).

Definition closes (name : string) : handle :=
  Handle name (Some (fun u => (S u, Returns tt))).

Definition close_raises (name : string) : handle :=
  Handle name (Some (fun u => (u, Raises "close failed"))).

Definition never_closes (name : string) : handle :=
  Handle name None.

Definition S1 : stream_fn :=
  PyFunc 3 (fun fd size url _ u => (u, Returns (Plain (Some (closes "S1"))))).

Definition S2 : stream_fn :=
  PyFunc 3 (fun fd size url _ u =>
              (u, Returns (Tuple2 (Some (close_raises "S2")) (url +:+ ".gz")))).

Definition S3 : stream_fn :=
  PyFunc 4 (fun fd size url _ u =>
              (u, Returns (Tuple3 (Some (closes "S3")) (Some 42) url))).

Definition file : @ClassicFile string nat string :=
  {| fds := [Some (closes "S1"); Some (close_raises "S2"); Some (closes "S3")] |}.

End WordCount.

(** ** A job of pure functions *)

(** The word count with the functions of a job as the classic worker
    asks for them: a map function, a partition function and a combiner
    that neither raise nor look at the world. *)
Module PureJob.

Import WordCount.

(** [map]: one record per word. *)
Definition one_each (entry : string) : list (string * Z) := [(entry, 1)].

Definition tally_word (entry p : string) (u : nat)
    : nat * returned string (list (string * Z)) :=
  (u, Returns (one_each entry)).

(** What [by_length] returns for two partitions. *)
Definition parity (key : string) : Z := Z.of_nat (String.length key) mod 2.

(** What [sum_combiner] leaves in the buffer. *)
Definition keep (key : string) (val : Z) (buf : list Z) : list Z := val :: buf.

(** With the combiner of the word count, and without a combiner. *)
Definition combining : Worker := set_map worker (Native tally_word).


(** A job without a reduce function. *)
Definition map_only : Worker := set_reduce worker Absent.

(** The stream keys of a map input: one input stream, an entry that is
    [None], and a reader. *)
Definition keys : @StreamKeys string string nat string :=
  {| map_input_stream := [Some S1; None];
     map_reader := Some S3;
     map_output_stream := [];
     reduce_input_stream := [];
     reduce_reader := None;
     reduce_output_stream := [];
     self_open_hook := open_hook |}.

(** The attributes of a params object, one of them private. *)
Definition attributes : gmap string Z := {[ "c" := 0; "_seen" := 7 ]}.

End PureJob.

(** ** Facts about lists *)

Lemma omap_Forall_None {A B} (f : A -> option B) (P : A -> Prop) (l : list A) :
  (forall x, P x -> f x = None) -> Forall P l -> omap f l = [].
Proof.
  intros Hf. induction 1 as [|x l Hx _ IH]; [done|].
  simpl. by rewrite (Hf x Hx).
Qed.


(** ** Facts about dicts *)

Section DictFacts.

Context {A : Type}.

Implicit Types (d : dict A) (k : option string) (v : A).

Lemma dict_get_set d k v k' :
  dict_get (dict_set d k v) k' = if decide (k = k') then Some v else dict_get d k'.
Proof.
  induction d as [|[k0 v0] d IH]; simpl.
  - by destruct (decide (k = k')).
  - destruct (decide (k0 = k)) as [->|Hne]; simpl.
    + by destruct (decide (k = k')).
    + rewrite IH. destruct (decide (k0 = k')) as [->|Hne']; [|done].
      by destruct (decide (k = k')); [congruence|].
Qed.

Lemma dict_get_keys d k : is_Some (dict_get d k) <-> k ∈ map fst d.
Proof.
  induction d as [|[k0 v0] d IH]; simpl.
  - split; [by intros [] | by intros ?%elem_of_nil].
  - rewrite elem_of_cons. destruct (decide (k0 = k)) as [->|Hne].
    + split; [by left | by eauto].
    + rewrite IH. split; [by right | by intros [?|?]; [congruence|]].
Qed.

Lemma dict_get_elem_of d k v : dict_get d k = Some v -> (k, v) ∈ d.
Proof.
  induction d as [|[k0 v0] d IH]; simpl; [done|].
  destruct (decide (k0 = k)) as [->|Hne].
  - intros [= ->]. apply list_elem_of_here.
  - intros Hget. by apply list_elem_of_further, IH.
Qed.

Lemma dict_set_keys d k v :
  map fst (dict_set d k v)
  = if decide (k ∈ map fst d) then map fst d else map fst d ++ [k].
Proof.
  induction d as [|[k0 v0] d IH]; simpl.
  - by destruct (decide (k ∈ [])) as [?%elem_of_nil|].
  - destruct (decide (k0 = k)) as [->|Hne]; simpl.
    + destruct (decide (k ∈ k :: map fst d)) as [|Hnot]; [done|].
      exfalso. apply Hnot, list_elem_of_here.
    + rewrite IH. destruct (decide (k ∈ map fst d)) as [Hin|Hnot].
      * destruct (decide (k ∈ k0 :: map fst d)) as [|Hnot']; [done|].
        exfalso. by apply Hnot', list_elem_of_further.
      * destruct (decide (k ∈ k0 :: map fst d)) as [Hin'|]; [|done].
        apply elem_of_cons in Hin' as [?|?]; congruence.
Qed.

Lemma dict_set_NoDup d k v : NoDup (map fst d) -> NoDup (map fst (dict_set d k v)).
Proof.
  intros Hd. rewrite dict_set_keys. destruct (decide (k ∈ map fst d)); [done|].
  apply NoDup_app. split_and!; [done | | apply NoDup_singleton].
  intros k' Hk' ->%list_elem_of_singleton. done.
Qed.

Lemma dict_set_set d k v v' : dict_set (dict_set d k v) k v' = dict_set d k v'.
Proof.
  induction d as [|[k0 v0] d IH]; simpl.
  - by destruct (decide (k = k)).
  - destruct (decide (k0 = k)) as [->|Hne]; simpl.
    + by destruct (decide (k = k)).
    + destruct (decide (k0 = k)); [done|]. by rewrite IH.
Qed.

End DictFacts.

(** ** Facts about the monad *)

Section MonadFacts.

Context {Ev U E : Type}.

Local Abbreviation M := (M Ev U E).

Lemma bind_Ok {A B} (m : M A) (f : A -> M B) u t u1 a :
  m u = Res t u1 (Ok a) ->
  bind m f u = Res (t ++ trace (f a u1)) (world (f a u1)) (value (f a u1)).
Proof. intros Hm. unfold bind. rewrite Hm. by destruct (f a u1). Qed.

Lemma bind_Raise {A B} (m : M A) (f : A -> M B) u t u1 e :
  m u = Res t u1 (Raise e) ->
  bind m f u = Res t u1 (Raise e).
Proof. intros Hm. unfold bind. by rewrite Hm. Qed.

Lemma bind_inv_Ok {A B} (m : M A) (f : A -> M B) u t u' b :
  bind m f u = Res t u' (Ok b) ->
  exists t1 u1 a t2,
    m u = Res t1 u1 (Ok a) /\ f a u1 = Res t2 u' (Ok b) /\ t = t1 ++ t2.
Proof.
  unfold bind. destruct (m u) as [t1 u1 [a|e]]; [|done].
  destruct (f a u1) as [t2 u2 r] eqn:Hf. intros [= <- <- ->].
  by exists t1, u1, a, t2.
Qed.

Lemma bind_cases {A B} (m : M A) (f : A -> M B) u :
  (exists t1 u1 a,
     m u = Res t1 u1 (Ok a)
     /\ bind m f u = Res (t1 ++ trace (f a u1)) (world (f a u1)) (value (f a u1)))
  \/ (exists t1 u1 e,
        m u = Res t1 u1 (Raise e) /\ bind m f u = Res t1 u1 (Raise e)).
Proof.
  destruct (m u) as [t1 u1 [a|e]] eqn:Hm.
  - left. exists t1, u1, a. split; [done|]. by apply bind_Ok.
  - right. exists t1, u1, e. split; [done|]. by apply bind_Raise.
Qed.

Lemma res_eta {A} (r : res Ev U E A) : Res (trace r) (world r) (value r) = r.
Proof. by destruct r. Qed.

Lemma bind_ret_l {A B} (a : A) (f : A -> M B) u : bind (ret a) f u = f a u.
Proof. unfold bind, ret. by destruct (f a u). Qed.

Lemma bind_assoc {A B C} (m : M A) (f : A -> M B) (g : B -> M C) u :
  bind (bind m f) g u = bind m (fun a => bind (f a) g) u.
Proof.
  unfold bind. destruct (m u) as [t1 u1 [a|e]]; [|done].
  destruct (f a u1) as [t2 u2 [b|e]]; [|done].
  destruct (g b u2) as [t3 u3 r]. by rewrite app_assoc.
Qed.

Lemma bind_ext {A B} (m : M A) (f g : A -> M B) u :
  (forall a u', f a u' = g a u') -> bind m f u = bind m g u.
Proof.
  intros Hfg. unfold bind. destruct (m u) as [t1 u1 [a|e]]; [|done].
  by rewrite Hfg.
Qed.

Lemma foldM_app {A S} (f : S -> A -> M S) (l1 l2 : list A) (s : S) u :
  foldM f (l1 ++ l2) s u = (s' <- foldM f l1 s ;; foldM f l2 s') u.
Proof.
  revert s u. induction l1 as [|x l1 IH]; intros s u.
  - cbn [app foldM]. by rewrite bind_ret_l.
  - cbn [app foldM]. rewrite bind_assoc. apply bind_ext. intros s' u'. apply IH.
Qed.

Lemma post_ret {A} (a : A) (Q : list Ev -> outcome E A -> Prop) :
  Q [] (Ok a) -> post (ret a : M A) Q.
Proof. intros HQ u. done. Qed.

Lemma post_raise {A} (e : exn E) (Q : list Ev -> outcome E A -> Prop) :
  Q [] (Raise e) -> post (raise e : M A) Q.
Proof. intros HQ u. done. Qed.

Lemma post_emit (ev : Ev) (Q : list Ev -> outcome E unit -> Prop) :
  Q [ev] (Ok tt) -> post (emit ev : M unit) Q.
Proof. intros HQ u. done. Qed.

Lemma post_call {A} (ev : Ev) (f : U -> U * returned E A)
    (Q : list Ev -> outcome E A -> Prop) :
  (forall r, Q [ev] (outcome_of r)) -> post (call ev f) Q.
Proof. intros HQ u. apply HQ. Qed.

Lemma post_with_world {A} (f : U -> M A) (Q : list Ev -> outcome E A -> Prop) :
  (forall u, post (f u) Q) -> post (with_world f) Q.
Proof. intros HQ u. apply HQ. Qed.

Lemma post_mono {A} (m : M A) (Q Q' : list Ev -> outcome E A -> Prop) :
  post m Q -> (forall t r, Q t r -> Q' t r) -> post m Q'.
Proof. intros Hm HQ u. apply HQ, Hm. Qed.

Lemma post_bind {A B} (m : M A) (f : A -> M B)
    (Qm : list Ev -> outcome E A -> Prop) (Q : list Ev -> outcome E B -> Prop) :
  post m Qm ->
  (forall t e, Qm t (Raise e) -> Q t (Raise e)) ->
  (forall t a, Qm t (Ok a) -> post (f a) (fun t2 r => Q (t ++ t2) r)) ->
  post (bind m f) Q.
Proof.
  intros Hm He Hf u. specialize (Hm u). unfold bind.
  destruct (m u) as [t u1 [a|e]]; simpl in *.
  - specialize (Hf t a Hm u1). by destruct (f a u1).
  - by apply He.
Qed.

(** A loop keeps what every run of its body keeps. *)
Lemma post_foldM {A S} (f : S -> A -> M S)
    (I : list Ev -> S -> Prop) (X : list Ev -> exn E -> Prop) (l : list A) :
  (forall t s x, I t s ->
     post (f s x) (fun t2 r => match r with
                               | Ok s' => I (t ++ t2) s'
                               | Raise e => X (t ++ t2) e
                               end)) ->
  forall t s, I t s ->
    post (foldM f l s) (fun t2 r => match r with
                                    | Ok s' => I (t ++ t2) s'
                                    | Raise e => X (t ++ t2) e
                                    end).
Proof.
  intros Hf. induction l as [|x l IH]; intros t s HI.
  - apply post_ret. by rewrite app_nil_r.
  - cbn [foldM]. eapply post_bind.
    + apply (Hf t s x HI).
    + intros t2 e He. done.
    + intros t2 s' HI'. simpl in HI'.
      eapply post_mono; [apply (IH _ _ HI')|].
      intros t3 [s''|e]; by rewrite app_assoc.
Qed.

Section Inv.

Variables (P : Ev -> Prop) (R : exn E -> Prop).

Lemma inv_ret {A} (a : A) : inv P R (ret a : M A).
Proof. apply post_ret. split; [constructor | discriminate]. Qed.

Lemma inv_raise {A} (e : exn E) : R e -> inv P R (raise e : M A).
Proof. intros He. apply post_raise. split; [constructor | congruence]. Qed.

Lemma inv_emit (ev : Ev) : P ev -> inv P R (emit ev : M unit).
Proof. intros Hev. apply post_emit. split; [by repeat constructor | discriminate]. Qed.

Lemma inv_call {A} (ev : Ev) (f : U -> U * returned E A) :
  P ev -> (forall e, R (Raised e)) -> inv P R (call ev f).
Proof.
  intros Hev HR. apply post_call. intros r. split; [by repeat constructor|].
  intros e. destruct r; simpl; intros [= <-]. apply HR.
Qed.

Lemma inv_with_world {A} (f : U -> M A) :
  (forall u, inv P R (f u)) -> inv P R (with_world f).
Proof. apply post_with_world. Qed.

Lemma inv_bind {A B} (m : M A) (f : A -> M B) :
  inv P R m -> (forall a, inv P R (f a)) -> inv P R (bind m f).
Proof.
  intros Hm Hf. eapply post_bind; [apply Hm | |].
  - intros t e [Ht He]. split; [done|]. intros e' [= <-]. by apply He.
  - intros t a [Ht _]. eapply post_mono; [apply (Hf a)|].
    intros t2 r [Ht2 Hr]. split; [by apply Forall_app | done].
Qed.

Lemma inv_foldM {A S} (f : S -> A -> M S) (l : list A) (s : S) :
  (forall s x, inv P R (f s x)) -> inv P R (foldM f l s).
Proof.
  intros Hf. revert s. induction l as [|x l IH]; intros s.
  - apply inv_ret.
  - cbn [foldM]. apply inv_bind; [apply Hf | apply IH].
Qed.

End Inv.

Lemma post_ext {A} (m m' : M A) (Q : list Ev -> outcome E A -> Prop) :
  (forall u, m u = m' u) -> post m' Q -> post m Q.
Proof. intros Heq Hm u. rewrite Heq. apply Hm. Qed.

Lemma inv_ext {A} (P : Ev -> Prop) (R : exn E -> Prop) (m m' : M A) :
  (forall u, m u = m' u) -> inv P R m' -> inv P R m.
Proof. apply post_ext. Qed.

Lemma inv_mono {A} (P P' : Ev -> Prop) (R R' : exn E -> Prop) (m : M A) :
  inv P R m -> (forall ev, P ev -> P' ev) -> (forall e, R e -> R' e) ->
  inv P' R' m.
Proof.
  intros Hm HP HR. eapply post_mono; [apply Hm|].
  intros t r [Ht Hr]. split; [by eapply Forall_impl | auto].
Qed.

End MonadFacts.

(** One step through a computation for a goal [inv P R m]. *)
Ltac inv_step :=
  lazymatch goal with
  | |- inv _ _ (ret _) => apply inv_ret
  | |- inv _ _ (emit _) => apply inv_emit
  | |- inv _ _ (call _ _) => apply inv_call
  | |- inv _ _ (raise _) => apply inv_raise
  | |- inv _ _ (with_world _) => apply inv_with_world; intros ?
  | |- inv _ _ (foldM _ _ _) => apply inv_foldM; intros ? ?
  | |- inv _ _ (bind _ _) => apply inv_bind; [|intros ?]
  end.

(** ** The progress reporter *)

Section StatusFacts.

Context {K V Entry Params Buf U E : Type}.
Variable env : @Env K V Entry Params Buf U E.

Hypothesis send_ok : forall message, send env message = None.

Lemma status_ok message (u : U) : status env message u = Res [EStatus message] u (Ok tt).
Proof using send_ok. unfold status. by rewrite send_ok. Qed.

Lemma report_due_notified interval (n : Z) :
  match interval with Some k => 0 <= k | None => True end ->
  report_due interval n = notified interval (n + 1).
Proof.
  unfold report_due, notified, truthy_int. destruct interval as [k|]; [|done].
  simpl. intros Hk. destruct (Z.eqb_spec k 0) as [->|Hne]; simpl.
  - by destruct (1 <=? 0) eqn:H0.
  - destruct (Z.leb_spec 1 k); [done | lia].
Qed.

Lemma report_ok interval template (n : Z) (u : U) :
  match interval with Some k => 0 <= k | None => True end ->
  report env interval template n u =
  Res (if notified interval (n + 1)
       then [EStatus (percent template (str (n + 1)))] else []) u (Ok tt).
Proof using send_ok.
  intros Hk. unfold report. rewrite report_due_notified by done.
  destruct (notified interval (n + 1)); [apply status_ok | done].
Qed.

Lemma div_succ (k n : Z) :
  1 <= k -> 0 <= n ->
  (n + 1) / k = n / k + (if (n + 1) mod k =? 0 then 1 else 0).
Proof.
  intros Hk Hn.
  pose proof (Z.div_mod n k ltac:(lia)) as Hdm.
  pose proof (Z.mod_pos_bound n k ltac:(lia)) as Hb.
  destruct (Z.eq_dec (n mod k + 1) k) as [Heq|Hne].
  - assert (Hm : n + 1 = k * (n / k + 1) + 0) by lia.
    rewrite <- (Z.mod_unique_pos (n + 1) k (n / k + 1) 0 ltac:(lia) Hm).
    rewrite <- (Z.div_unique_pos (n + 1) k (n / k + 1) 0 ltac:(lia) Hm).
    done.
  - assert (Hm : n + 1 = k * (n / k) + (n mod k + 1)) by lia.
    rewrite <- (Z.mod_unique_pos (n + 1) k (n / k) (n mod k + 1) ltac:(lia) Hm).
    rewrite <- (Z.div_unique_pos (n + 1) k (n / k) (n mod k + 1) ltac:(lia) Hm).
    destruct (Z.eqb_spec (n mod k + 1) 0); lia.
Qed.

(** There are [total / k] multiples of [k] among [1 .. total]. *)
Lemma notified_indices_length (k : Z) (n : nat) :
  1 <= k ->
  length (notified_indices (Some k) (Z.of_nat n)) = Z.to_nat (Z.of_nat n / k).
Proof.
  intros Hk. unfold notified_indices. induction n as [|n IH].
  - simpl. by rewrite Z.div_0_l by lia.
  - rewrite seqZ_S, filter_app, length_app, IH.
    replace (Z.of_nat (S n)) with (Z.of_nat n + 1) by lia.
    rewrite (div_succ k (Z.of_nat n)) by lia.
    replace (1 + Z.of_nat n) with (Z.of_nat n + 1) by lia.
    pose proof (Z.div_pos (Z.of_nat n) k ltac:(lia) ltac:(lia)) as Hq.
    rewrite filter_cons, filter_nil. unfold notified.
    destruct (Z.leb_spec 1 k); [|lia]. simpl.
    destruct (Z.eqb_spec ((Z.of_nat n + 1) mod k) 0) as [Hz|Hz];
      case_decide; simpl; try done; lia.
Qed.

Lemma notified_indices_falsy interval (total : Z) :
  truthy_int interval = false -> notified_indices interval total = [].
Proof.
  intros Hf. unfold notified_indices.
  induction (seqZ 1 total) as [|i l IH]; [done|].
  rewrite filter_cons. case_decide as Hn; [|done].
  destruct interval as [k|]; [|done]. simpl in Hf, Hn.
  destruct (Z.eqb_spec k 0) as [->|]; [|done].
  by destruct (1 <=? 0) eqn:H0.
Qed.

(** The loop of [list(g)] from any point of the input. *)
Lemma for_items_collect interval template (items : list Entry) (n : Z)
    (acc : list Entry) (u : U) :
  match interval with Some k => 0 <= k | None => True end ->
  for_items env interval template items n
            (fun item acc => ret (acc ++ [item])) acc u =
  Res (map (fun i => EStatus (percent template (str i)))
           (filter (fun i => notified interval i = true)
                   (seqZ (n + 2) (Z.of_nat (length items))))
       ++ [EStatus ("Done: " +:+
                    percent template (str (n + 1 + Z.of_nat (length items))))])
      u (Ok (acc ++ items)).
Proof using send_ok.
  intros Hk. revert n acc. induction items as [|item rest IH]; intros n acc.
  - simpl. unfold report_done.
    rewrite (bind_Ok _ _ _ _ _ _ (status_ok _ _)). simpl.
    by rewrite Z.add_0_r, app_nil_r.
  - cbn [for_items].
    rewrite (bind_Ok _ _ _ _ _ _ (report_ok _ _ _ _ Hk)).
    rewrite bind_ret_l, IH. cbn [trace world value].
    rewrite (seqZ_cons (n + 2)) by (cbn [length]; lia).
    rewrite filter_cons.
    replace (Z.succ (n + 2)) with (n + 1 + 2) by lia.
    replace (Z.pred (Z.of_nat (length (item :: rest))))
      with (Z.of_nat (length rest)) by (cbn [length]; lia).
    replace (n + 1 + 1 + Z.of_nat (length rest))
      with (n + 1 + Z.of_nat (length (item :: rest))) by (cbn [length]; lia).
    replace (n + 1 + 1) with (n + 2) by lia.
    replace ((acc ++ [item]) ++ rest) with (acc ++ item :: rest)
      by (by rewrite <- app_assoc).
    destruct (notified interval (n + 2)) eqn:Hn; case_decide; try done.
Qed.

(** C4.  With a notification channel that accepts every message and a
    report interval that is absent, zero or positive: the call of
    [next()] that yields the item of 1-based index [i] sends the
    periodic notification with the count [i] when the interval is
    positive and divides [i], and nothing otherwise; the call that
    finds the input exhausted sends the final notification with the
    total count (0 for an empty input) and later calls send nothing;
    consuming the whole generator gives the items unchanged and
    sends the periodic notifications followed by the one final
    notification; there are [total / interval] periodic
    notifications for an interval of at least 1, and none for an
    interval that is 0 or absent. *)
Theorem status_iter_notifications (interval : option Z) (items : list Entry)
    (template : string) (u : U) :
  match interval with Some k => 0 <= k | None => True end ->
  let total := Z.of_nat (length items) in
  let periodic i := EStatus (K:=K) (V:=V) (Params:=Params) (Buf:=Buf)
                            (percent template (str i)) in
  let final := EStatus (K:=K) (V:=V) (Params:=Params) (Buf:=Buf)
                       ("Done: " +:+ percent template (str total)) in
  status_iter interval items template = gen_after interval template items 0
  /\ (forall (i : nat) (item : Entry),
        items !! i = Some item ->
        next env (gen_after interval template items i) u =
        Res (if notified interval (Z.of_nat i + 1)
             then [periodic (Z.of_nat i + 1)] else [])
            u (Ok (Some item, gen_after interval template items (S i))))
  /\ next env (gen_after interval template items (length items)) u =
     Res [final] u (Ok (None, gen_finished interval template items))
  /\ next env (gen_finished interval template items) u =
     Res [] u (Ok (None, gen_finished interval template items))
  /\ drain env (status_iter interval items template) u =
     Res (map periodic (notified_indices interval total) ++ [final]) u (Ok items)
  /\ (forall k, interval = Some k -> 1 <= k ->
        length (notified_indices interval total) = Z.to_nat (total / k))
  /\ (truthy_int interval = false -> notified_indices interval total = []).
Proof using send_ok.
  intros Hk total periodic final. split_and!.
  - done.
  - intros i item Hi. unfold next, gen_after. cbn [gen_exhausted gen_iterator].
    rewrite (drop_S _ _ _ Hi). cbn [gen_n gen_interval gen_template].
    rewrite (bind_Ok _ _ _ _ _ _ (report_ok _ _ _ _ Hk)).
    unfold ret. cbn [trace world value]. rewrite app_nil_r.
    replace (Z.of_nat i - 1 + 1 + 1) with (Z.of_nat i + 1) by lia.
    replace (Z.of_nat i - 1 + 1) with (Z.of_nat (S i) - 1) by lia.
    done.
  - unfold next, gen_after. cbn [gen_exhausted gen_iterator].
    rewrite drop_all. cbn [gen_n gen_interval gen_template]. unfold report_done.
    rewrite (bind_Ok _ _ _ _ _ _ (status_ok _ _)).
    unfold ret. cbn [trace world value].
    replace (Z.of_nat (length items) - 1 + 1) with total by (unfold total; lia).
    done.
  - done.
  - unfold drain, for_in, status_iter. cbn [gen_exhausted gen_iterator gen_n
      gen_interval gen_template].
    rewrite for_items_collect by done.
    replace (-1 + 2) with 1 by lia.
    replace (-1 + 1 + Z.of_nat (length items)) with total by (unfold total; lia).
    done.
  - intros k -> Hk1. apply notified_indices_length. done.
  - apply notified_indices_falsy.
Qed.

End StatusFacts.

(** ** The progress reporter and a channel that fails *)

Section StatusFailure.

Context {K V Entry Params Buf U E : Type}.
Variable env : @Env K V Entry Params Buf U E.

Local Abbreviation event := (@event K V Entry Params Buf).

Lemma report_run interval template (n : Z) (u : U) :
  match interval with Some k => 0 <= k | None => True end ->
  report env interval template n u =
  if notified interval (n + 1)
  then status env (percent template (str (n + 1))) u
  else Res [] u (Ok tt).
Proof.
  intros Hk. unfold report. rewrite report_due_notified by done.
  by destruct (notified interval (n + 1)).
Qed.

Lemma for_items_refused interval template (bad : string) (rest : list string)
    (e : E) (u : U) :
  match interval with Some k => 0 <= k | None => True end ->
  send env bad = Some e ->
  forall (items : list Entry) (n : Z) (acc : list Entry) (ok : list string),
    map (fun i => percent template (str i))
        (filter (fun i => notified interval i = true)
                (seqZ (n + 2) (Z.of_nat (length items))))
    ++ ["Done: " +:+ percent template (str (n + 1 + Z.of_nat (length items)))]
    = ok ++ bad :: rest ->
    Forall (fun m => send env m = None) ok ->
    for_items env interval template items n
              (fun item acc => ret (acc ++ [item])) acc u
    = Res (map EStatus (ok ++ [bad])) u (Raise (Raised e)).
Proof.
  intros Hk Hbad. induction items as [|item items IH]; intros n acc ok Hmsgs Hok.
  - cbn [length] in Hmsgs. simpl in Hmsgs. rewrite Z.add_0_r in Hmsgs.
    destruct ok as [|m ok]; [|by destruct ok].
    injection Hmsgs as <- _. cbn [for_items].
    apply bind_Raise. unfold report_done, status. by rewrite Hbad.
  - cbn [for_items]. rewrite (seqZ_cons (n + 2)) in Hmsgs by (cbn [length]; lia).
    rewrite filter_cons in Hmsgs.
    replace (Z.succ (n + 2)) with (n + 1 + 2) in Hmsgs by lia.
    replace (Z.pred (Z.of_nat (length (item :: items))))
      with (Z.of_nat (length items)) in Hmsgs by (cbn [length]; lia).
    replace (n + 1 + Z.of_nat (length (item :: items)))
      with (n + 1 + 1 + Z.of_nat (length items)) in Hmsgs by (cbn [length]; lia).
    pose proof (report_run interval template (n + 1) u Hk) as Hrep.
    replace (n + 1 + 1) with (n + 2) in Hrep by lia.
    destruct (notified interval (n + 2)) eqn:Hn; case_decide; try done.
    + cbn [map app] in Hmsgs. destruct ok as [|m ok].
      * injection Hmsgs as <- _. apply bind_Raise. rewrite Hrep.
        unfold status. by rewrite Hbad.
      * injection Hmsgs as <- Hmsgs. apply Forall_cons in Hok as [Hm Hok].
        assert (report env interval template (n + 1) u
                = Res [EStatus (percent template (str (n + 2)))] u (Ok tt)) as Hrep'.
        { rewrite Hrep. unfold status. by rewrite Hm. }
        rewrite (bind_Ok _ _ _ _ _ _ Hrep'), bind_ret_l.
        by rewrite (IH (n + 1) (acc ++ [item]) ok Hmsgs Hok).
    + rewrite (bind_Ok _ _ _ _ _ _ Hrep), bind_ret_l.
      by rewrite (IH (n + 1) (acc ++ [item]) ok Hmsgs Hok).
Qed.

(** A status message the channel refuses ends the progress reporter
    with the exception of the channel: when the messages owed for the
    input are [ok], then [bad], then [rest], the channel accepts those
    of [ok] and raises [e] on [bad], consuming the generator sends
    [ok] and [bad] and raises [e]; the items are not returned and
    [rest] is not sent. *)
Lemma reporter_stops_at_refusal (interval : option Z)
    (items : list Entry) (template : string) (u : U)
    (ok : list string) (bad : string) (rest : list string) (e : E) :
  match interval with Some k => 0 <= k | None => True end ->
  notifications interval template (Z.of_nat (length items)) = ok ++ bad :: rest ->
  Forall (fun m => send env m = None) ok ->
  send env bad = Some e ->
  drain env (status_iter interval items template) u
  = Res (map EStatus (ok ++ [bad])) u (Raise (Raised e)).
Proof.
  intros Hk Hmsgs Hok Hbad. unfold drain, for_in, status_iter.
  cbn [gen_exhausted gen_interval gen_template gen_iterator gen_n].
  apply (for_items_refused interval template bad rest e u Hk Hbad); [|done].
  replace (-1 + 2) with 1 by lia.
  by replace (-1 + 1 + Z.of_nat (length items)) with (Z.of_nat (length items)) by lia.
Qed.

End StatusFailure.

(** ** The map pipeline *)

Section MapFacts.

Context {K V Entry Params Buf U E : Type}.
Variable env : @Env K V Entry Params Buf U E.

Local Abbreviation event := (@event K V Entry Params Buf).
Local Abbreviation M := (M event U E).

Implicit Types (w : @Worker K V Entry Params Buf U E) (p : Params).
Implicit Types (c : @combiner_fn K V Params Buf U E) (t : list event).

(** *** The progress reporter sends status messages and nothing else *)

Section Quiet.

Variables (P : event -> Prop) (R : exn E -> Prop).
Hypothesis P_status : forall message, P (EStatus message).
Hypothesis R_raised : forall e, R (Raised e).

Lemma inv_status message : inv P R (status env message).
Proof using P_status R_raised.
  intros u. unfold status. simpl. split; [by repeat constructor|].
  intros e. destruct (send env message); intros [= <-]. apply R_raised.
Qed.

Lemma inv_report interval template n : inv P R (report env interval template n).
Proof using P_status R_raised.
  unfold report. destruct (report_due interval n); [apply inv_status | inv_step].
Qed.

Lemma inv_next g : inv P R (next env g).
Proof using P_status R_raised.
  unfold next. destruct (gen_exhausted g); [inv_step|].
  destruct (gen_iterator g); inv_step; try inv_step.
  - apply inv_status.
  - apply inv_report.
Qed.

Lemma inv_pull k g : inv P R (pull env k g).
Proof using P_status R_raised.
  revert g. induction k as [|k IH]; intros g; cbn [pull]; inv_step.
  - apply inv_next.
  - apply IH.
Qed.

Lemma inv_next_caught g : inv P R (next_caught env g).
Proof using P_status R_raised.
  intros u. destruct (inv_next g u) as [Ht Hr]. unfold next_caught.
  cbn [trace value]. split; [done|]. intros e.
  destruct (value (next env g u)) as [[[item|] g']|e']; [done | done |].
  destruct e'; try done; intros [= <-]; by apply Hr.
Qed.

Lemma inv_run_proc {Y} (out : Y -> event) (f : proc Y) g :
  (forall y, P (out y)) -> inv P R (run_proc env out f g).
Proof using P_status R_raised.
  intros Hout. revert g.
  induction f as [|e|k IH|y k IH|f k IH]; intros g; cbn [run_proc].
  - apply inv_ret.
  - apply inv_raise, R_raised.
  - apply inv_bind; [apply inv_next_caught | intros a; apply IH].
  - apply inv_bind; [by apply inv_emit | intros _; apply IH].
  - intros u. apply (IH u g (f u)).
Qed.

Lemma inv_call_iter {Y} ev (out : Y -> event) (f : proc Y) g :
  P ev -> (forall y, P (out y)) -> inv P R (call_iter env ev out f g).
Proof using P_status R_raised.
  intros Hev Hout. unfold call_iter.
  apply inv_bind; [by apply inv_emit | intros _; by apply inv_run_proc].
Qed.

(** An init function hands nothing on. *)
Lemma inv_call_init ev (f : proc Empty_set) g :
  P ev -> inv P R (call_iter env ev no_yield f g).
Proof using P_status R_raised. intros Hev. apply inv_call_iter; [done | by intros []]. Qed.

Lemma inv_for_items {S} interval template items n (body : Entry -> S -> M S) s :
  (forall item s, inv P R (body item s)) ->
  inv P R (for_items env interval template items n body s).
Proof using P_status R_raised.
  intros Hbody. revert n s.
  induction items as [|item rest IH]; intros n s; cbn [for_items]; repeat inv_step.
  - apply inv_status.
  - apply inv_report.
  - apply Hbody.
  - apply IH.
Qed.

Lemma inv_for_in {S} g (body : Entry -> S -> M S) s :
  (forall item s, inv P R (body item s)) -> inv P R (for_in env g body s).
Proof using P_status R_raised.
  intros Hbody. unfold for_in. destruct (gen_exhausted g); [inv_step|].
  by apply inv_for_items.
Qed.

End Quiet.

(** *** The loop over the generator

    [for item in g] is: call [next()]; at [StopIteration] leave the
    loop, otherwise run the body on the item and go on. *)
Lemma for_in_next {S} g (body : Entry -> S -> M S) (s : S) (u : U) :
  for_in env g body s u
  = (r <- next env g ;;
     match fst r with
     | None => ret s
     | Some item => s' <- body item s ;; for_in env (snd r) body s'
     end) u.
Proof.
  unfold for_in, next. destruct (gen_exhausted g) eqn:Hg.
  - rewrite bind_ret_l. cbn [fst]. done.
  - destruct (gen_iterator g) as [|item rest]; cbn [for_items];
      rewrite bind_assoc; apply bind_ext; intros [] u'; by rewrite bind_ret_l.
Qed.

(** *** The events of the loop over the entries *)

Lemma inv_add_all (P : event -> Prop) (R : exn E -> Prop) part records :
  (forall record, P (EAdd ByPipeline part record)) ->
  inv P R (add_all part records : M unit).
Proof. intros HP. unfold add_all, add. repeat inv_step. apply HP. Qed.

Lemma inv_map_record w p bufs record :
  inv (input_event w p) passed_on (map_record env w p bufs record).
Proof.
  unfold map_record. destruct record as [key val].
  destruct (truthy_int (partitions w)) eqn:Htruthy.
  - destruct (partitions w) as [n|] eqn:Hn; [|done]. simpl.
    apply inv_bind; [repeat inv_step; try done; simpl; by rewrite Hn|].
    intros part.
    destruct (combiner w) as [c|] eqn:Hc.
    + unfold call_combiner. repeat inv_step; try done.
      * simpl. rewrite Hc, Hn. split_and!; [congruence | by eauto | done].
      * apply inv_add_all. intros. simpl. rewrite Hn. congruence.
    + unfold add. repeat inv_step. simpl. rewrite Hn. congruence.
  - eapply inv_ext; [intros u; apply bind_ret_l|].
    destruct (combiner w) as [c|] eqn:Hc.
    + unfold call_combiner. repeat inv_step; try done.
      apply inv_add_all. intros. by simpl.
    + unfold add. repeat inv_step. by simpl.
Qed.

Lemma inv_map_entry w p entry bufs :
  inv (input_event w p) passed_on (map_entry env w p entry bufs).
Proof.
  unfold map_entry, call_map. apply inv_bind.
  - destruct (map_ w); repeat inv_step; done.
  - intros records. apply inv_foldM. intros. apply inv_map_record.
Qed.

Lemma inv_map_input w task p :
  inv (input_event w p) passed_on (map_input env w task p).
Proof.
  unfold map_input. apply inv_bind.
  - by apply inv_call_init.
  - intros r. apply inv_for_in; try done. intros. apply inv_map_entry.
Qed.

(** *** Projections of traces *)

Lemma combined_parts_app (t1 t2 : list event) :
  combined_parts t1 ++ combined_parts t2 = combined_parts (t1 ++ t2).
Proof. unfold combined_parts. by rewrite omap_app. Qed.

Lemma mapped_entries_app (t1 t2 : list event) :
  mapped_entries t1 ++ mapped_entries t2 = mapped_entries (t1 ++ t2).
Proof. unfold mapped_entries. by rewrite omap_app. Qed.

Lemma final_flushes_app (t1 t2 : list event) :
  final_flushes t1 ++ final_flushes t2 = final_flushes (t1 ++ t2).
Proof. unfold final_flushes. by rewrite omap_app. Qed.

Lemma mapped_entries_status (t : list event) :
  Forall is_status t -> mapped_entries t = [].
Proof. apply omap_Forall_None. by intros []. Qed.

Lemma combined_parts_status (t : list event) :
  Forall is_status t -> combined_parts t = [].
Proof. apply omap_Forall_None. by intros []. Qed.

Lemma final_flushes_input w p (t : list event) :
  Forall (input_event w p) t -> final_flushes t = [].
Proof.
  apply omap_Forall_None.
  intros [| | | |[?|] [?|] ? ? [|] ?|[|] ? ?| | | |]; simpl; done.
Qed.

(** *** What the writes of a list of records come to *)

Lemma add_all_run part (records : list (K * V)) (u : U) :
  (add_all part records : M unit) u =
  Res (map (EAdd ByPipeline part) records) u (Ok tt).
Proof.
  unfold add_all. induction records as [|record records IH]; [done|].
  cbn [foldM]. unfold add at 1.
  erewrite bind_Ok by reflexivity. rewrite IH. done.
Qed.

Lemma call_combiner_run c key val part buf final p (u : U) :
  (call_combiner c key val part buf final p : M _) u =
  Res [ECombiner key val part buf final p]
      (fst (c key val buf final p u))
      match snd (c key val buf final p u) with
      | Returns r => Ok (default [] (fst r), snd r)
      | Raises e => Raise (Raised e)
      end.
Proof.
  unfold call_combiner, bind, call, ret. cbn [trace world value].
  by destruct (snd (c key val buf final p u)).
Qed.

Lemma post_map_record w p bufs record :
  post (map_record env w p bufs record)
       (fun t r => match r with
                   | Ok bufs' =>
                       mapped_entries t = []
                       /\ (forall part, is_Some (dict_get bufs' part) <->
                                        is_Some (dict_get bufs part)
                                        \/ part ∈ combined_parts t)
                       /\ (NoDup (map fst bufs) -> NoDup (map fst bufs'))
                   | Raise _ => True
                   end).
Proof.
  unfold map_record. destruct record as [key val].
  eapply post_bind with
    (Qm := fun t r => combined_parts t = [] /\ mapped_entries t = []).
  - destruct (truthy_int (partitions w)); [|by apply post_ret].
    eapply post_bind with
      (Qm := fun t r => combined_parts t = [] /\ mapped_entries t = []).
    + by apply post_call.
    + done.
    + intros t r [Ht Ht']. apply post_ret. by rewrite app_nil_r.
  - done.
  - intros t part [Ht Ht']. destruct (combiner w) as [c|].
    + eapply post_bind with
        (Qm := fun t2 r => combined_parts t2 = [part] /\ mapped_entries t2 = []).
      * intros u. by rewrite call_combiner_run.
      * done.
      * intros t2 r [Ht2 Ht2'].
        eapply post_bind with
          (Qm := fun t3 r => combined_parts t3 = [] /\ mapped_entries t3 = []).
        -- intros u. rewrite add_all_run. cbn [trace].
           split; apply omap_Forall_None
                    with (P := fun ev => exists r, ev = EAdd ByPipeline part r);
             try (by intros ? [? ->]);
             apply Forall_forall; intros ev;
             rewrite list_elem_of_fmap; intros [? [-> _]]; eauto.
        -- done.
        -- intros t3 _ [Ht3 Ht3']. apply post_ret.
           rewrite <- !mapped_entries_app, <- !combined_parts_app.
           rewrite Ht, Ht', Ht2, Ht2', Ht3, Ht3'. simpl. split_and!; [done | |].
           ++ intros part'. rewrite list_elem_of_singleton, dict_get_set.
              destruct (decide (part = part')) as [->|Hne].
              ** split; [by right | by eauto].
              ** destruct (dict_get bufs part) eqn:Hb.
                 --- split; [by left | by intros [?|?]].
                 --- rewrite dict_get_set. destruct (decide (part = part')); [done|].
                     split; [by left | by intros [?|?]].
           ++ intros Hnodup. apply dict_set_NoDup.
              destruct (dict_get bufs part); [done | by apply dict_set_NoDup].
    + unfold add. intros u. unfold bind, emit, ret. cbn [trace world value].
      rewrite <- !mapped_entries_app, <- !combined_parts_app, Ht, Ht'. simpl.
      split_and!; [done | | done].
      intros part'. split; [by left | by intros [?|?%elem_of_nil]].
Qed.

(** The buffers after the records of one entry: a partition has a
    buffer when it had one before or the combiner was called on
    it. *)
Lemma post_map_entry w p entry bufs :
  post (map_entry env w p entry bufs)
       (fun t r => match r with
                   | Ok bufs' =>
                       mapped_entries t = [entry]
                       /\ (forall part, is_Some (dict_get bufs' part) <->
                                        is_Some (dict_get bufs part)
                                        \/ part ∈ combined_parts t)
                       /\ (NoDup (map fst bufs) -> NoDup (map fst bufs'))
                   | Raise _ => True
                   end).
Proof.
  unfold map_entry.
  eapply post_bind with
    (Qm := fun t r => match r with
                      | Ok _ => combined_parts t = [] /\ mapped_entries t = [entry]
                      | Raise _ => True
                      end).
  - unfold call_map. destruct (map_ w); try by apply post_raise.
    apply post_call. by intros [].
  - done.
  - intros t records [Ht Ht'].
    pose proof (post_foldM (map_record env w p)
      (fun t2 bufs' => mapped_entries t2 = [entry]
         /\ (forall part, is_Some (dict_get bufs' part) <->
                          is_Some (dict_get bufs part) \/ part ∈ combined_parts t2)
         /\ (NoDup (map fst bufs) -> NoDup (map fst bufs')))
      (fun _ _ => True) records) as Hfold.
    apply Hfold.
    + clear Hfold. intros t2 s record (Hm & Hs & Hn).
      eapply post_mono; [apply post_map_record|].
      intros t3 [bufs'|e] Hr; [|done]. destruct Hr as (Hm3 & Hr & Hn3).
      rewrite <- mapped_entries_app, <- combined_parts_app, Hm, Hm3.
      split_and!; [done | | by auto].
      intros part. rewrite Hr, Hs, elem_of_app. tauto.
    + split_and!; [done | | done]. intros part. rewrite Ht.
      split; [by left | by intros [?|?%elem_of_nil]].
Qed.

Lemma post_report interval template n :
  post (report env interval template n)
       (fun t r => Forall is_status t).
Proof.
  eapply post_mono;
    [apply (inv_report is_status (fun _ => True)); done | by intros ? ? []].
Qed.

(** The loop over the generator keeps what its body keeps and status
    messages do not touch; [rest] is the input still to come. *)
Lemma post_for_items {S} (I : list event -> list Entry -> S -> Prop)
    interval template (body : Entry -> S -> M S) :
  (forall t t' rest s, I t rest s -> Forall is_status t' -> I (t ++ t') rest s) ->
  (forall t item rest s,
     I t (item :: rest) s ->
     post (body item s) (fun t2 r => match r with
                                     | Ok s' => I (t ++ t2) rest s'
                                     | Raise _ => True
                                     end)) ->
  forall items n t s,
    I t items s ->
    post (for_items env interval template items n body s)
         (fun t2 r => match r with
                      | Ok s' => I (t ++ t2) [] s'
                      | Raise _ => True
                      end).
Proof.
  intros Hst Hbody. induction items as [|item rest IH]; intros n t s HI.
  - cbn [for_items]. eapply post_bind with (Qm := fun t r => Forall is_status t).
    + eapply post_mono;
        [apply (inv_status is_status (fun _ => True)); done | by intros ? ? []].
    + done.
    + intros t2 [] Ht2. apply post_ret. rewrite app_nil_r. by apply Hst.
  - cbn [for_items]. eapply post_bind; [apply post_report | done |].
    intros t2 [] Ht2. eapply post_bind.
    + apply (Hbody (t ++ t2) item rest s). by apply Hst.
    + done.
    + intros t3 s' HI'. simpl in HI'.
      eapply post_mono; [apply (IH (n + 1) _ _ HI')|].
      intros t4 [s''|e]; [|done]. by rewrite !app_assoc.
Qed.

(** *** The generator after the run of a function *)

Lemma pull_exhausted k g (u : U) :
  gen_exhausted g = true -> pull env k g u = Res [] u (Ok g).
Proof.
  intros Hg. induction k as [|k IH]; [done|].
  cbn [pull]. unfold next. rewrite Hg. by rewrite bind_ret_l.
Qed.

Lemma next_remaining g (u : U) t u' x g' :
  next env g u = Res t u' (Ok (x, g')) -> remaining g' `suffix_of` remaining g.
Proof.
  unfold next, remaining. destruct (gen_exhausted g) eqn:Hg.
  - intros [= <- <- <- <-]. by rewrite Hg.
  - destruct (gen_iterator g) as [|item rest].
    + intros Hrun. apply bind_inv_Ok in Hrun as (t1 & u1 & [] & t2 & _ & Hret & _).
      injection Hret as <- <- <- <-. done.
    + intros Hrun. apply bind_inv_Ok in Hrun as (t1 & u1 & [] & t2 & _ & Hret & _).
      injection Hret as <- <- <- <-. cbn [gen_exhausted gen_iterator].
      by apply suffix_cons_r.
Qed.

Lemma next_caught_remaining g (u : U) t u' a g' :
  next_caught env g u = Res t u' (Ok (a, g')) ->
  remaining g' `suffix_of` remaining g.
Proof.
  unfold next_caught. intros [= <- <- Hv].
  destruct (next env g u) as [t1 u1 [[[item|] g1]|e]] eqn:Hnext; cbn [value] in Hv.
  - injection Hv as <- <-. by eapply next_remaining.
  - injection Hv as <- <-. by eapply next_remaining.
  - destruct e; try done. injection Hv as <- <-. apply suffix_nil.
Qed.

Lemma run_proc_remaining {Y} (out : Y -> event) (f : proc Y) g (u : U) t u' g' :
  run_proc env out f g u = Res t u' (Ok g') ->
  remaining g' `suffix_of` remaining g.
Proof.
  revert g u t. induction f as [|e|k IH|y k IH|f k IH]; intros g u t; cbn [run_proc].
  - by intros [= <- <- <-].
  - done.
  - intros Hrun.
    apply bind_inv_Ok in Hrun as (t1 & u1 & [a g1] & t2 & Hnext & Hrest & _).
    apply next_caught_remaining in Hnext. apply IH in Hrest.
    by etrans.
  - intros Hrun.
    apply bind_inv_Ok in Hrun as (t1 & u1 & [] & t2 & _ & Hrest & _).
    by apply IH in Hrest.
  - apply IH.
Qed.

Lemma call_iter_remaining {Y} ev (out : Y -> event) (f : proc Y) g (u : U) t u' g' :
  call_iter env ev out f g u = Res t u' (Ok g') ->
  remaining g' `suffix_of` remaining g.
Proof.
  unfold call_iter. intros Hrun.
  apply bind_inv_Ok in Hrun as (t1 & u1 & [] & t2 & _ & Hrest & _).
  by apply run_proc_remaining in Hrest.
Qed.

(** What the init function of a map task leaves is the end of the
    input. *)
Lemma init_left_suffix w task p (u : U) :
  init_left env w task p u `suffix_of` input task.
Proof.
  unfold init_left.
  destruct (call_iter env _ _ _ _ u) as [t1 u1 [g|e]] eqn:Hinit; cbn [value].
  - by apply call_iter_remaining in Hinit.
  - apply suffix_nil.
Qed.

(** *** The order of the buffers *)

Lemma dict_items_elem_of (d : dict Buf) item : item ∈ dict_items env d <-> item ∈ d.
Proof. by rewrite (dict_items_once env d). Qed.

Lemma dict_items_keys (d : dict Buf) :
  map fst (dict_items env d) ≡ₚ map fst d.
Proof. apply Permutation_map, dict_items_once. Qed.

Lemma dict_items_NoDup (d : dict Buf) :
  NoDup (map fst d) -> NoDup (map fst (dict_items env d)).
Proof. by rewrite dict_items_keys. Qed.


(** *** The loop over the entries: what is mapped, which buffers
    there are *)

Lemma map_input_Ok w task p (u : U) t u' bufs :
  map_input env w task p u = Res t u' (Ok bufs) ->
  mapped_entries t = init_left env w task p u
  /\ (forall part, is_Some (dict_get bufs part) <-> part ∈ combined_parts t)
  /\ NoDup (map fst bufs).
Proof.
  unfold map_input, init_left. intros Hrun.
  apply bind_inv_Ok in Hrun as (t1 & u1 & g' & t2 & Hinit & Hloop & ->).
  pose proof (inv_call_init (fun ev => is_status ev \/ ev = EInit MapMode p)
                (fun _ => True) ltac:(by left) ltac:(done)
                (EInit MapMode p) (map_init w p)
                (status_iter (status_interval w) (input task) "%s entries mapped")
                ltac:(by right) u) as [Ht1 _].
  rewrite Hinit in Ht1 |- *. cbn [trace value] in Ht1 |- *.
  assert (mapped_entries t1 = []) as Hm1.
  { eapply omap_Forall_None; [|exact Ht1]. intros ev [Hev| ->]; [|done].
    by destruct ev. }
  assert (combined_parts t1 = []) as Hc1.
  { eapply omap_Forall_None; [|exact Ht1]. intros ev [Hev| ->]; [|done].
    by destruct ev. }
  rewrite <- mapped_entries_app, <- combined_parts_app, Hm1, Hc1. simpl.
  unfold for_in in Hloop. unfold remaining.
  destruct (gen_exhausted g') eqn:Hex.
  - injection Hloop as <- <- <-. split_and!; [done | | constructor].
    intros part. split; [by intros [] | by intros ?%elem_of_nil].
  - pose proof (post_for_items
      (fun t rest s => mapped_entries t ++ rest = gen_iterator g'
         /\ (forall part, is_Some (dict_get s part) <-> part ∈ combined_parts t)
         /\ NoDup (map fst s))
      (gen_interval g') (gen_template g') (map_entry env w p)) as Hfor.
    specialize (Hfor ltac:(clear; intros t t' rest s (Hm & Hs & Hn) Hst;
      rewrite <- mapped_entries_app, <- combined_parts_app;
      rewrite (mapped_entries_status t'), (combined_parts_status t') by done;
      by rewrite !app_nil_r)).
    specialize (Hfor ltac:(clear; intros t item rest s (Hm & Hs & Hn);
      eapply post_mono; [apply post_map_entry|];
      intros t2 [s'|e]; [|done]; intros (Hm2 & Hs2 & Hn2);
      rewrite <- mapped_entries_app, <- combined_parts_app, Hm2, <- Hm;
      split_and!; [by rewrite <- app_assoc | | by auto];
      intros part; rewrite Hs2, Hs, elem_of_app; tauto)).
    specialize (Hfor (gen_iterator g') (gen_n g') [] []).
    specialize (Hfor ltac:(split_and!; [done | | constructor]; intros part;
      split; [by intros [] | by intros ?%elem_of_nil]) u1).
    rewrite Hloop in Hfor. cbn [trace value] in Hfor.
    rewrite app_nil_l, app_nil_r in Hfor. destruct Hfor as (Hm & Hs & Hn).
    by rewrite Hm.
Qed.

(** The partitions of the buffers in the order of the last loop:
    those the combiner was called on, each once. *)
Lemma map_input_items w task p (u : U) t u' bufs :
  map_input env w task p u = Res t u' (Ok bufs) ->
  (forall part, part ∈ map fst (dict_items env bufs) <-> part ∈ combined_parts t)
  /\ NoDup (map fst (dict_items env bufs)).
Proof.
  intros (_ & Hbufs & Hnodup)%map_input_Ok. split; [|by apply dict_items_NoDup].
  intros part. by rewrite dict_items_keys, <- dict_get_keys.
Qed.

(** *** The loop over the buffers *)

Lemma final_flushes_adds part (records : list (K * V)) :
  final_flushes (map (EAdd ByPipeline part) records : list event) = [].
Proof. by induction records. Qed.

Lemma final_flushes_final key val part buf p t :
  final_flushes (ECombiner key val part buf true p :: t)
  = (part, buf) :: final_flushes t.
Proof. done. Qed.

Lemma flush_flushed w p c items (u : U) :
  combiner w = Some c ->
  flushed c p items u
          (trace (foldM (flush w p) items tt u))
          (world (foldM (flush w p) items tt u))
          (value (foldM (flush w p) items tt u)).
Proof.
  intros Hc. revert u. induction items as [|[part buf] items IH]; intros u.
  - constructor.
  - cbn [foldM].
    assert (flush w p tt (part, buf) u =
            Res (ECombiner None None part buf true p
                 :: match snd (c None None buf true p u) with
                    | Returns r => map (EAdd ByPipeline part) (default [] (fst r))
                    | Raises _ => []
                    end)
                (fst (c None None buf true p u))
                match snd (c None None buf true p u) with
                | Returns _ => Ok tt
                | Raises e => Raise (Raised e)
                end) as Hflush.
    { unfold flush. rewrite Hc. cbn [fst snd].
      unfold bind. rewrite call_combiner_run.
      destruct (snd (c None None buf true p u)) as [r|e]; [|done].
      cbn [fst]. by rewrite add_all_run. }
    destruct (c None None buf true p u) as [u' [[records buf']|e]] eqn:Hcall;
      cbn [fst snd] in Hflush.
    + rewrite (bind_Ok _ _ _ _ _ _ Hflush). cbn [trace world value].
      rewrite <- app_comm_cons. by econstructor.
    + rewrite (bind_Raise _ _ _ _ _ _ Hflush). by econstructor.
Qed.

Lemma flushed_prefix c p items (u u' : U) t r :
  flushed c p items u t u' r ->
  final_flushes t `prefix_of` items /\ (r = Ok tt -> final_flushes t = items).
Proof.
  induction 1 as [u|part buf items u u' records buf' t u'' r Hc _ [IH1 IH2]
                 |part buf items u u' e Hc].
  - done.
  - rewrite final_flushes_final, <- final_flushes_app, final_flushes_adds.
    simpl. split.
    + by apply prefix_cons.
    + intros Hr. by rewrite IH2.
  - split; [|done]. simpl. apply prefix_cons, prefix_nil.
Qed.

(** The events of the flushes name partitions that have buffers. *)
Lemma inv_flush w p (P : option string -> Prop) items :
  Forall (fun item => P (fst item)) items ->
  inv (fun ev => match ev with
                 | ECombiner None None part _ true _ => P part
                 | EAdd ByPipeline part _ => P part
                 | _ => False
                 end)
      passed_on (foldM (flush w p) items tt).
Proof.
  induction 1 as [|[part buf] items HP _ IH]; [apply inv_ret|].
  cbn [foldM]. apply inv_bind; [|by intros []].
  unfold flush. destruct (combiner w); [|by apply inv_raise].
  unfold call_combiner. repeat inv_step; try done.
  apply inv_add_all. intros. done.
Qed.


(** *** The properties of the map pipeline *)

(** C1.  A map run with a combiner, past the check of the
    configuration, is the loop over the entries followed by the loop
    over the buffers.  The first makes no call of the combiner with
    [done=True]; when it raises, the run ends there.  When it
    returns, every entry the init function left has been mapped, the
    partitions with a buffer are those the combiner was called on,
    and the second loop calls
    [combiner(None, None, buf, True, params)] on the buffers in the
    order of [bufs.items()], each partition once, writing what each
    call returns to the sink of that partition, and stops only if
    such a call raises; a run that returns has flushed every buffer
    exactly once. *)
Theorem map_flushes_each_buffer_once w task p (u : U) c :
  combiner w = Some c ->
  save w && truthy_int (partitions w) && negb (truthy_slot (reduce w)) = false ->
  exists t1 u1 r1,
    map_input env w task p u = Res t1 u1 r1
    /\ final_flushes t1 = []
    /\ match r1 with
       | Raise e => Worker_map env w task p u = Res t1 u1 (Raise e)
       | Ok bufs =>
           let items := dict_items env bufs in
           mapped_entries t1 = init_left env w task p u
           /\ init_left env w task p u `suffix_of` input task
           /\ (forall part, part ∈ map fst items <-> part ∈ combined_parts t1)
           /\ NoDup (map fst items)
           /\ exists t2 u2 r2,
               Worker_map env w task p u = Res (t1 ++ t2) u2 r2
               /\ flushed c p items u1 t2 u2 r2
               /\ final_flushes (t1 ++ t2) `prefix_of` items
               /\ (r2 = Ok tt -> final_flushes (t1 ++ t2) = items)
       end.
Proof.
  intros Hc Hguard. unfold Worker_map. rewrite Hguard.
  destruct (map_input env w task p u) as [t1 u1 r1] eqn:Hin.
  exists t1, u1, r1. split; [done|].
  assert (final_flushes t1 = []) as Hff.
  { apply (final_flushes_input w p).
    pose proof (inv_map_input w task p u) as [Hev _]. by rewrite Hin in Hev. }
  split; [done|]. destruct r1 as [bufs|e].
  - apply map_input_Ok in Hin as Hok. destruct Hok as (Hmapped & _ & _).
    apply map_input_items in Hin as Hitems. destruct Hitems as [Hparts Hnodup].
    cbv zeta. split_and!; try done.
    { apply init_left_suffix. }
    pose proof (flush_flushed w p c (dict_items env bufs) u1 Hc) as Hfl.
    exists (trace (foldM (flush w p) (dict_items env bufs) tt u1)),
           (world (foldM (flush w p) (dict_items env bufs) tt u1)),
           (value (foldM (flush w p) (dict_items env bufs) tt u1)).
    split.
    { apply (bind_Ok _ (fun bufs => foldM (flush w p) (dict_items env bufs) tt)
                    _ _ _ _ Hin). }
    split; [done|].
    rewrite <- final_flushes_app, Hff. simpl. by eapply flushed_prefix.
  - by apply bind_Raise.
Qed.

(** C6.  A configuration that asks to save partitioned output and has
    no reduce makes the map pipeline raise its configuration error
    with nothing done: no status message, no call of the init or the
    map function, no entry consumed, the world as it was.  With any
    other configuration the map pipeline never raises that error:
    what leaves it then is an exception of user code or of a
    collaborator, or a [TypeError]. *)
Theorem map_configuration_error w task p (u : U) :
  let unsupported :=
    save w && truthy_int (partitions w) && negb (truthy_slot (reduce w)) in
  (unsupported = true ->
     Worker_map env w task p u =
     Res [] u (Raise (NotImplementedError
                        "Storing partitioned outputs in DDFS is not yet supported")))
  /\ (unsupported = false ->
        (forall msg, value (Worker_map env w task p u)
                     <> Raise (NotImplementedError msg))
        /\ forall e, value (Worker_map env w task p u) = Raise e -> passed_on e).
Proof.
  intros unsupported. subst unsupported. unfold Worker_map. split; intros ->; [done|].
  assert (inv (fun _ => True) passed_on
            (bufs <- map_input env w task p ;;
             foldM (flush w p) (dict_items env bufs) tt)) as Hinv.
  { apply inv_bind.
    - eapply inv_mono; [apply inv_map_input | done | done].
    - intros bufs. eapply inv_mono; [apply (inv_flush w p (fun _ => True))| |]; try done.
      by apply Forall_forall. }
  destruct (Hinv u) as [_ Hr]. split; [|exact Hr].
  intros msg Hmsg. by apply Hr in Hmsg.
Qed.


End MapFacts.

(** ** The reduce pipeline *)

Section ReduceFacts.

Context {K V Entry Params Buf U E : Type}.
Variable env : @Env K V Entry Params Buf U E.

Local Abbreviation event := (@event K V Entry Params Buf).
Local Abbreviation M := (M event U E).

Implicit Types (w : @Worker K V Entry Params Buf U E) (p : Params).
Implicit Types (t : list event) (f : @reduce_fn K V Entry Params U E).

Lemma reduce_calls_app t1 t2 :
  reduce_calls t1 ++ reduce_calls t2 = reduce_calls (t1 ++ t2).
Proof. unfold reduce_calls. by rewrite omap_app. Qed.

Lemma pipeline_adds_app t1 t2 :
  pipeline_adds t1 ++ pipeline_adds t2 = pipeline_adds (t1 ++ t2).
Proof. unfold pipeline_adds. by rewrite omap_app. Qed.

Lemma function_adds_app t1 t2 :
  function_adds t1 ++ function_adds t2 = function_adds (t1 ++ t2).
Proof. unfold function_adds. by rewrite omap_app. Qed.

Lemma pipeline_adds_by_pipeline part (records : list (K * V)) :
  pipeline_adds (map (EAdd ByPipeline part) records : list event)
  = map (pair part) records.
Proof. induction records as [|r records IH]; [done|]. simpl. by f_equal. Qed.

Lemma pipeline_adds_by_function part (records : list (K * V)) :
  pipeline_adds (map (EAdd ByFunction part) records : list event) = [].
Proof. by induction records. Qed.

Lemma function_adds_by_function part (records : list (K * V)) :
  function_adds (map (EAdd ByFunction part) records : list event)
  = map (pair part) records.
Proof. induction records as [|r records IH]; [done|]. simpl. by f_equal. Qed.

Lemma function_adds_by_pipeline part (records : list (K * V)) :
  function_adds (map (EAdd ByPipeline part) records : list event) = [].
Proof. by induction records. Qed.

Lemma reduce_calls_adds (wr : writer) part (records : list (K * V)) :
  reduce_calls (map (EAdd wr part) records : list event) = [].
Proof. by induction records. Qed.

Lemma projections_status t :
  Forall is_status t ->
  reduce_calls t = [] /\ pipeline_adds t = [] /\ function_adds t = [].
Proof.
  intros Ht. split_and!; (eapply omap_Forall_None; [|exact Ht]); by intros [].
Qed.

(** A call of an init function: the event of the call, then status
    messages. *)
Lemma call_iter_trace ev (g : proc Empty_set) gen (u : U) :
  exists statuses,
    trace (call_iter env ev no_yield g gen u) = ev :: statuses
    /\ Forall is_status statuses.
Proof.
  unfold call_iter, bind, emit.
  pose proof (inv_run_proc env is_status (fun _ => True) ltac:(done) ltac:(done)
                no_yield g gen ltac:(by intros []) u) as [Hst _].
  destruct (run_proc env no_yield g gen u) as [t2 u2 r]. cbn [trace] in *.
  by exists t2.
Qed.

Lemma next_caught_status gen (u : U) : Forall is_status (trace (next_caught env gen u)).
Proof.
  by destruct (inv_next_caught env is_status (fun _ => True)
                 ltac:(done) ltac:(done) gen u).
Qed.

(** The writes in the run of a function are the records it hands on,
    in order, written by the one [wr] that [out] stands for. *)
Lemma run_proc_adds (wr : writer) (g : proc (K * V)) gen (u : U) :
  let t := trace (run_proc env (EAdd wr None) g gen u) in
  reduce_calls t = []
  /\ pipeline_adds t
     = match wr with
       | ByPipeline => map (pair None) (produced env g gen u)
       | ByFunction => []
       end
  /\ function_adds t
     = match wr with
       | ByPipeline => []
       | ByFunction => map (pair None) (produced env g gen u)
       end.
Proof.
  cbv zeta. revert gen u.
  induction g as [|e|k IH|y k IH|f k IH]; intros gen u; cbn [run_proc produced].
  - by destruct wr.
  - by destruct wr.
  - pose proof (next_caught_status gen u) as Hst.
    apply projections_status in Hst as (Hrc & Hpa & Hfa).
    destruct (bind_cases (next_caught env gen)
                (fun a => run_proc env (EAdd wr None) (k (fst a)) (snd a)) u)
      as [(t1 & u1 & [a gen'] & Hnext & ->)|(t1 & u1 & e & Hnext & ->)];
      rewrite Hnext in Hrc, Hpa, Hfa |- *; cbn [trace world value fst snd] in *.
    + rewrite <- reduce_calls_app, <- pipeline_adds_app, <- function_adds_app.
      rewrite Hrc, Hpa, Hfa. apply IH.
    + by destruct wr.
  - unfold bind, emit.
    destruct (IH gen u) as (Hrc & Hpa & Hfa).
    destruct (run_proc env (EAdd wr None) k gen u) as [t2 u2 r].
    cbn [trace app] in *.
    change (EAdd wr None y :: t2) with ([EAdd wr None y] ++ t2).
    rewrite <- reduce_calls_app, <- pipeline_adds_app, <- function_adds_app.
    rewrite Hrc, Hpa, Hfa. by destruct wr.
  - apply IH.
Qed.

(** C3.  After the init function has returned, a reduce function of
    two parameters is called once, as [reduce(entries, params)], and
    the pipeline adds every record the function hands on to the one
    sink, that of partition [None], as it comes, in order; a reduce
    function of three parameters is called once, as
    [reduce(entries, output, params)], and the pipeline adds nothing:
    the writes to the sink are those of the function. *)
Theorem reduce_dispatch w task p (u : U) f t1 u1 g :
  reduce w = Native f ->
  call_iter env (EInit ReduceMode p) no_yield (reduce_init w p)
            (status_iter (status_interval w) (reduce_ordered env w task)
                         "%s entries reduced") u
  = Res t1 u1 (Ok g) ->
  let run := Worker_reduce env w task p u in
  let records := produced env (body f p) g u1 in
  (argcount f = 2%nat ->
     let r := run_proc env (EAdd ByPipeline None) (body f p) g u1 in
     run = Res (t1 ++ EReduce2 p :: trace r) (world r)
               match value r with Ok _ => Ok tt | Raise e => Raise e end
     /\ reduce_calls (trace run) = [(2%nat, p)]
     /\ pipeline_adds (trace run) = map (pair None) records
     /\ function_adds (trace run) = [])
  /\ (argcount f = 3%nat ->
        let r := run_proc env (EAdd ByFunction None) (body f p) g u1 in
        run = Res (t1 ++ EReduce3 p :: trace r) (world r)
                  match value r with Ok _ => Ok tt | Raise e => Raise e end
        /\ reduce_calls (trace run) = [(3%nat, p)]
        /\ pipeline_adds (trace run) = []
        /\ function_adds (trace run) = map (pair None) records).
Proof.
  intros Hf Hinit run records.
  destruct (call_iter_trace (EInit ReduceMode p) (reduce_init w p)
              (status_iter (status_interval w) (reduce_ordered env w task)
                           "%s entries reduced") u) as (st1 & Ht1 & Hst1).
  rewrite Hinit in Ht1. cbn [trace] in Ht1.
  destruct (projections_status _ Hst1) as (Hrc1 & Hpa1 & Hfa1).
  split; intros Hargs r.
  - assert (run = Res (t1 ++ EReduce2 p :: trace r) (world r)
                      match value r with Ok _ => Ok tt | Raise e => Raise e end) as Hrun.
    { subst run. unfold Worker_reduce, reduce_entries.
      rewrite (bind_Ok _ _ _ _ _ _ Hinit). rewrite Hf, Hargs. cbn [Nat.ltb Nat.leb].
      unfold call_reduce2. rewrite Hargs. cbn [Nat.eqb].
      unfold call_iter, bind, emit, ret. fold r.
      destruct r as [t2 u2 [g'|e]]; cbn [trace world value app];
        by rewrite ?app_nil_r. }
    split; [done|]. rewrite Hrun. cbn [trace].
    destruct (run_proc_adds ByPipeline (body f p) g u1) as (Hrc2 & Hpa2 & Hfa2).
    fold r in Hrc2, Hpa2, Hfa2. fold records in Hpa2.
    rewrite Ht1.
    change (EReduce2 p :: trace r) with ([EReduce2 p] ++ trace r).
    change (EInit ReduceMode p :: st1) with ([EInit ReduceMode p] ++ st1).
    rewrite <- !reduce_calls_app, <- !pipeline_adds_app, <- !function_adds_app.
    rewrite Hrc1, Hpa1, Hfa1, Hrc2, Hpa2, Hfa2. by split_and!.
  - assert (run = Res (t1 ++ EReduce3 p :: trace r) (world r)
                      match value r with Ok _ => Ok tt | Raise e => Raise e end) as Hrun.
    { subst run. unfold Worker_reduce, reduce_entries.
      rewrite (bind_Ok _ _ _ _ _ _ Hinit). rewrite Hf, Hargs. cbn [Nat.ltb Nat.leb].
      unfold call_reduce3. rewrite Hargs. cbn [Nat.eqb].
      unfold call_iter, bind, emit, ret. fold r.
      destruct r as [t2 u2 [g'|e]]; cbn [trace world value app];
        by rewrite ?app_nil_r. }
    split; [done|]. rewrite Hrun. cbn [trace].
    destruct (run_proc_adds ByFunction (body f p) g u1) as (Hrc2 & Hpa2 & Hfa2).
    fold r in Hrc2, Hpa2, Hfa2. fold records in Hfa2.
    rewrite Ht1.
    change (EReduce3 p :: trace r) with ([EReduce3 p] ++ trace r).
    change (EInit ReduceMode p :: st1) with ([EInit ReduceMode p] ++ st1).
    rewrite <- !reduce_calls_app, <- !pipeline_adds_app, <- !function_adds_app.
    rewrite Hrc1, Hpa1, Hfa1, Hrc2, Hpa2, Hfa2. by split_and!.
Qed.

(** C7.  The partition selector of a reduce task is the string of
    the task's id when the inputs are partitioned and merging is
    not asked for, and [None] otherwise; the entries of the reduce
    are the inputs listed under that selector, shuffled, read in
    turn and then, only if sorting is on, sorted; the generator the
    init and the reduce function are handed runs over them. *)
Theorem reduce_input_selection w task p :
  (ispartitioned env (inputs task) = true -> merge_partitions w = false ->
     reduce_partition env w task = Some (str (taskid task)))
  /\ (ispartitioned env (inputs task) = false \/ merge_partitions w = true ->
        reduce_partition env w task = None)
  /\ (let read selector :=
        SerialInput env (shuffled env (inputlist env (inputs task) selector)) in
      (sort w = true ->
         reduce_ordered env w task
         = disk_sort env (read (reduce_partition env w task))
                     (path task "sort.dl") (sort_buffer_size w))
      /\ (sort w = false ->
            reduce_ordered env w task = read (reduce_partition env w task)))
  /\ Worker_reduce env w task p
     = reduce_entries env w
         (status_iter (status_interval w) (reduce_ordered env w task)
                      "%s entries reduced") p.
Proof.
  unfold reduce_partition, reduce_ordered, Worker_sort. split_and!.
  - by intros -> ->.
  - intros [-> | ->]; [done|]. by rewrite andb_false_r.
  - by intros ->.
  - by intros ->.
  - done.
Qed.

End ReduceFacts.

(** ** The orchestrator *)

Section RunFacts.

Context {K V Entry Params Buf U E : Type}.
Variable env : @Env K V Entry Params Buf U E.

Local Abbreviation event := (@event K V Entry Params Buf).
Local Abbreviation M := (M event U E).

Implicit Types (w : @Worker K V Entry Params Buf U E) (p : Params).
Implicit Types (t : list event).

(** A computation on the world of user code keeps, in the state of a
    run, what it keeps there. *)
Lemma post_in_run {A} (m : M A) (Q : list event -> outcome E A -> Prop) :
  post m Q -> post (in_run m) Q.
Proof. intros Hm s. apply (Hm (user_world s)). Qed.

Lemma post_bind_Task task (Q : list event -> outcome E unit -> Prop) :
  Q [] (Ok tt) -> post (bind_Task (U:=U) task) Q.
Proof. intros HQ s. exact HQ. Qed.

Lemma inv_Worker_map w task p :
  inv pipeline_event (fun _ => True) (Worker_map env w task p).
Proof.
  unfold Worker_map. destruct (_ && _); [by apply inv_raise|].
  apply inv_bind.
  - eapply inv_mono; [apply inv_map_input| |done].
    intros [| | | |[?|] [?|] ? ? [|] ?|[|] ? ?| | | |]; done.
  - intros bufs.
    eapply inv_mono; [apply (inv_flush w p (fun _ => True))| |done].
    + by apply Forall_forall.
    + intros [| | | |[?|] [?|] ? ? [|] ?|[|] ? ?| | | |]; done.
Qed.

Lemma inv_Worker_reduce w task p :
  inv pipeline_event (fun _ => True) (Worker_reduce env w task p).
Proof.
  unfold Worker_reduce, reduce_entries. apply inv_bind; [by apply inv_call_init|].
  intros g. destruct (reduce w) as [|f|]; try by apply inv_raise.
  destruct (argcount f <? 3)%nat.
  - unfold call_reduce2. destruct (argcount f =? 2)%nat; [|by apply inv_raise].
    apply inv_bind; [by apply inv_call_iter | intros; apply inv_ret].
  - unfold call_reduce3. destruct (argcount f =? 3)%nat; [|by apply inv_raise].
    apply inv_bind; [by apply inv_call_iter | intros; apply inv_ret].
Qed.

Lemma inv_dispatch w task p :
  inv pipeline_event (fun _ => True) (dispatch env w task p).
Proof.
  unfold dispatch. destruct (mode task);
    [apply inv_Worker_map | apply inv_Worker_reduce].
Qed.

(** C5, as the code has it.  With the version of the running
    interpreter, a run binds the global [Task], prepares the external
    program if the function of the task's mode is one, runs the
    pipeline of that mode, and calls [external.close()] after a
    pipeline that returned.  When the pipeline raises, the run raises
    the same exception with the pipeline's events and world, and
    [external.close()] is not called. *)
Theorem run_releases_after_success w task running (s : @module_state Entry U) :
  version w = running ->
  let external := is_external w (mode task) in
  let w' :=
    if external
    then match mode task with
         | MapMode => set_map w (Native (external_map env (ext_params w)))
         | ReduceMode => set_reduce w (Native (external_reduce env (ext_params w)))
         end
    else w in
  let p := if external then ext_params w else params w in
  let prepare : list event :=
    if external then [EExternalPrepare (ext_params w) (mode task)] else [] in
  let pipeline := dispatch env w' task p (user_world s) in
  let run := Worker_run env running w task s in
  Forall pipeline_event (trace pipeline)
  /\ match value pipeline with
     | Ok _ =>
         run = Res (prepare ++ trace pipeline ++ [EExternalClose])
                   (ModuleState (Some task) (world pipeline)) (Ok tt)
     | Raise e =>
         run = Res (prepare ++ trace pipeline)
                   (ModuleState (Some task) (world pipeline)) (Raise e)
         /\ EExternalClose ∉ trace run
     end.
Proof.
  intros Hversion external w' p prepare pipeline run.
  pose proof (inv_dispatch w' task p (user_world s)) as [Hevents _].
  fold pipeline in Hevents.
  split; [done|].
  assert (run = match value pipeline with
                | Ok _ => Res (prepare ++ trace pipeline ++ [EExternalClose])
                              (ModuleState (Some task) (world pipeline)) (Ok tt)
                | Raise e => Res (prepare ++ trace pipeline)
                                 (ModuleState (Some task) (world pipeline)) (Raise e)
                end) as Hrun.
  { subst run. unfold Worker_run. rewrite Hversion, String.eqb_refl. cbn [negb].
    subst pipeline prepare p w' external.
    unfold bind, bind_Task, in_run, emit, ret.
    destruct (is_external w (mode task));
      cbn [trace world value fst snd user_world global_Task];
      match goal with
      | |- context [dispatch env ?w0 task ?p0 (user_world s)] =>
          destruct (dispatch env w0 task p0 (user_world s)) as [t u' [[]|e]]
      end; cbn [trace world value app]; by rewrite ?app_nil_r. }
  destruct (value pipeline) as [[]|e]; [done|]. split; [done|].
  rewrite Hrun. cbn [trace]. rewrite elem_of_app. intros [Hin|Hin].
  - subst prepare. destruct external; [|by apply elem_of_nil in Hin].
    by apply list_elem_of_singleton in Hin.
  - rewrite Forall_forall in Hevents. by apply Hevents in Hin.
Qed.

End RunFacts.

(** ** A task and a channel that fails *)

Section RefusalFacts.

Context {K V Entry Params Buf U E : Type}.
Variable env : @Env K V Entry Params Buf U E.

Local Abbreviation event := (@event K V Entry Params Buf).
Local Abbreviation M := (M event U E).

Implicit Types (w : @Worker K V Entry Params Buf U E) (p : Params).
Implicit Types (t : list event) (ev : event).

Lemma refusal_ret {A} (a : A) : refusal_stops env (ret a : M A).
Proof. apply post_ret. left. constructor. Qed.

Lemma refusal_raise {A} (e : exn E) : refusal_stops env (raise e : M A).
Proof. apply post_raise. left. constructor. Qed.

Lemma refusal_emit ev : accepted env ev -> refusal_stops env (emit ev : M unit).
Proof. intros Hev. apply post_emit. left. by repeat constructor. Qed.

Lemma refusal_call {A} ev (f : U -> U * returned E A) :
  accepted env ev -> refusal_stops env (call ev f).
Proof. intros Hev. apply post_call. intros r. left. by repeat constructor. Qed.

Lemma refusal_with_world {A} (f : U -> M A) :
  (forall u, refusal_stops env (f u)) -> refusal_stops env (with_world f).
Proof. apply post_with_world. Qed.

Lemma refusal_bind {A B} (m : M A) (f : A -> M B) :
  refusal_stops env m -> (forall a, refusal_stops env (f a)) ->
  refusal_stops env (bind m f).
Proof.
  intros Hm Hf. eapply post_bind; [apply Hm | |].
  - intros t e [Ht|(t' & message & e' & -> & Ht' & Hsend & Hr)]; [by left|].
    right. exists t', message, e'. split_and!; try done. congruence.
  - intros t a [Ht|(t' & message & e' & _ & _ & _ & Hr)]; [|done].
    eapply post_mono; [apply (Hf a)|].
    intros t2 r [Ht2|(t' & message & e' & -> & Ht' & Hsend & ->)].
    + left. by apply Forall_app.
    + right. exists (t ++ t'), message, e'. split_and!; try done.
      * by rewrite app_assoc.
      * by apply Forall_app.
Qed.

Lemma refusal_foldM {A S} (f : S -> A -> M S) (l : list A) (s : S) :
  (forall s x, refusal_stops env (f s x)) -> refusal_stops env (foldM f l s).
Proof.
  intros Hf. revert s. induction l as [|x l IH]; intros s.
  - apply refusal_ret.
  - cbn [foldM]. apply refusal_bind; [apply Hf | apply IH].
Qed.

Lemma refusal_status message : refusal_stops env (status env message).
Proof.
  intros u. unfold status. cbn [trace value].
  destruct (send env message) as [e|] eqn:Hsend.
  - right. exists [], message, e. by split_and!.
  - left. by repeat constructor.
Qed.

Local Ltac refusal_step :=
  lazymatch goal with
  | |- refusal_stops _ (ret _) => apply refusal_ret
  | |- refusal_stops _ (raise _) => apply refusal_raise
  | |- refusal_stops _ (emit _) => apply refusal_emit; done
  | |- refusal_stops _ (call _ _) => apply refusal_call; done
  | |- refusal_stops _ (status _ _) => apply refusal_status
  | |- refusal_stops _ (with_world _) => apply refusal_with_world; intros ?
  | |- refusal_stops _ (foldM _ _ _) => apply refusal_foldM; intros ? ?
  | |- refusal_stops _ (bind _ _) => apply refusal_bind; [|intros ?]
  end.

Lemma refusal_report interval template n :
  refusal_stops env (report env interval template n).
Proof. unfold report. destruct (report_due interval n); refusal_step. Qed.

Lemma refusal_next g : refusal_stops env (next env g).
Proof.
  unfold next, report_done. destruct (gen_exhausted g); [refusal_step|].
  destruct (gen_iterator g); repeat refusal_step. apply refusal_report.
Qed.





(** *** One call of [next()] *)




(** *** A task whose functions let the exception pass *)








(** *** Any task *)
















End RefusalFacts.

(** ** The stream chain *)

Section StreamFacts.

Context {H Params U E : Type}.

Local Abbreviation pyfd := (@pyfd H U E).
Local Abbreviation stream_fn := (@stream_fn H Params U E).
Local Abbreviation stream_event := (@stream_event H Params).
Local Abbreviation M := (M stream_event U E).

Implicit Types (params : Params) (fd : pyfd) (size : option Z) (url : string).
Implicit Types (stream : stream_fn) (streams : list stream_fn) (u : U).
Implicit Types (t : list stream_event) (fds : list pyfd).

(** *** Construction *)

Lemma ClassicFile_stage_Ok params st stream u t u' st' :
  ClassicFile_stage params st stream u = Res t u' (Ok st') ->
  exists r fd' size' url',
    (argcount stream = 3 \/ argcount stream = 4)%nat
    /\ body stream (cs_fd st) (cs_size st) (cs_url st)
            (if (argcount stream =? 4)%nat then Some params else None) u
       = (u', Returns r)
    /\ handed_on r (cs_size st) (cs_url st) = Some (fd', size', url')
    /\ t = [EStream (handle_id <$> cs_fd st) (cs_size st) (cs_url st)
                    (if (argcount stream =? 4)%nat then Some params else None)]
    /\ st' = ChainState (cs_fds st ++ [fd']) fd' size' url'.
Proof.
  unfold ClassicFile_stage, call_stream. intros Hrun.
  apply bind_inv_Ok in Hrun as (t1 & u1 & r & t2 & Hcall & Hrest & ->).
  assert ((argcount stream = 3 \/ argcount stream = 4)%nat) as Hargs.
  { destruct (Nat.eqb_spec (argcount stream) 4) as [->|Hne]; [by right|].
    destruct (Nat.eqb_spec (argcount stream) 3) as [->|Hne']; [by left|].
    done. }
  assert ((argcount stream =?
           match (if (argcount stream =? 4)%nat then Some params else None) with
           | Some _ => 4 | None => 3 end)%nat = true) as Hcheck.
  { destruct Hargs as [-> | ->]; done. }
  rewrite Hcheck in Hcall. unfold call in Hcall.
  destruct (body stream _ _ _ _ u) as [u1' [r'|e]] eqn:Hbody;
    cbn [fst snd outcome_of] in Hcall; [|done].
  injection Hcall as Ht Hu Hr. subst t1 u1 r.
  destruct r' as [fd'|fd' url'|fd' size' url'|]; [| | |done];
    injection Hrest as <- <- <-.
  - exists (Plain fd'), fd', (cs_size st), (cs_url st). by split_and!.
  - exists (Tuple2 fd' url'), fd', (cs_size st), url'. by split_and!.
  - exists (Tuple3 fd' size' url'), fd', size', url'. by split_and!.
Qed.

Lemma ClassicFile_stage_built params st stream u u1 r fd' size' url' :
  (argcount stream = 3 \/ argcount stream = 4)%nat ->
  body stream (cs_fd st) (cs_size st) (cs_url st)
       (if (argcount stream =? 4)%nat then Some params else None) u
  = (u1, Returns r) ->
  handed_on r (cs_size st) (cs_url st) = Some (fd', size', url') ->
  ClassicFile_stage params st stream u
  = Res [EStream (handle_id <$> cs_fd st) (cs_size st) (cs_url st)
                 (if (argcount stream =? 4)%nat then Some params else None)]
        u1 (Ok (ChainState (cs_fds st ++ [fd']) fd' size' url')).
Proof.
  intros Hargs Hbody Hr. unfold ClassicFile_stage, call_stream.
  assert ((argcount stream =?
           match (if (argcount stream =? 4)%nat then Some params else None) with
           | Some _ => 4 | None => 3 end)%nat = true) as ->.
  { destruct Hargs as [-> | ->]; done. }
  unfold bind, call. rewrite Hbody. cbn [fst snd outcome_of].
  destruct r; simpl in Hr; simplify_eq; done.
Qed.

Lemma stages_built params streams :
  forall acc fd size url u t u' st,
    foldM (ClassicFile_stage params) streams (ChainState acc fd size url) u
    = Res t u' (Ok st) ->
    exists fds, built params streams fd size url u t fds u'
                /\ cs_fds st = acc ++ fds.
Proof.
  induction streams as [|stream streams IH]; intros acc fd size url u t u' st Hrun.
  - injection Hrun as <- <- <-. exists []. split; [constructor|].
    by rewrite app_nil_r.
  - cbn [foldM] in Hrun.
    apply bind_inv_Ok in Hrun as (t1 & u1 & st1 & t2 & Hstage & Hrest & ->).
    apply ClassicFile_stage_Ok in Hstage
      as (r & fd' & size' & url' & Hargs & Hbody & Hr & -> & ->).
    cbn [cs_fd cs_size cs_url cs_fds] in *.
    apply IH in Hrest as (fds & Hbuilt & Hfds).
    exists (fd' :: fds). split; [by econstructor|].
    by rewrite Hfds, <- app_assoc.
Qed.

Lemma built_stages params streams fd size url u t fds u' :
  built params streams fd size url u t fds u' ->
  forall acc, exists st,
    foldM (ClassicFile_stage params) streams (ChainState acc fd size url) u
    = Res t u' (Ok st)
    /\ cs_fds st = acc ++ fds.
Proof.
  induction 1 as [fd size url u
                 |stream streams fd size url u u1 r fd' size' url' t fds u'
                    Hargs Hbody Hr _ IH]; intros acc.
  - eexists. split; [reflexivity|]. by rewrite app_nil_r.
  - destruct (IH (acc ++ [fd'])) as (st & Hrun & Hfds).
    exists st. split; [|by rewrite Hfds, <- app_assoc].
    cbn [foldM].
    erewrite bind_Ok;
      [|by apply (ClassicFile_stage_built params (ChainState acc fd size url)
                    stream u u1 r fd' size' url')].
    cbn [cs_fds cs_fd cs_size cs_url]. rewrite Hrun. done.
Qed.

(** C8.  Building a chain returns exactly when every stage, called
    in order with the handle of the stage before it (the given
    handle first), the running size, the running location and, when
    and only when it declares four parameters, the params, returns a
    handle or a tuple of a handle and a location or of a handle, a
    size and a location; the handles of the chain are those the
    stages returned, in order, and a returned size or location is
    what the later stages are called with. *)
Theorem chain_construction url streams params fd size u t fds u' :
  ClassicFile_init url streams params fd size u = Res t u' (Ok {| fds := fds |})
  <-> built params streams fd size url u t fds u'.
Proof.
  unfold ClassicFile_init. split.
  - intros Hrun.
    apply bind_inv_Ok in Hrun as (t1 & u1 & st & t2 & Hfold & Hret & ->).
    injection Hret as <- <- <-.
    apply stages_built in Hfold as (fds' & Hbuilt & ->).
    by rewrite app_nil_r.
  - intros Hbuilt. destruct (built_stages _ _ _ _ _ _ _ _ _ Hbuilt []) as (st & Hrun & Hfds).
    erewrite bind_Ok by exact Hrun. unfold ret. cbn [trace world value].
    by rewrite app_nil_r, Hfds.
Qed.

(** *** Teardown *)

Lemma closable_cons fd fds :
  closable (fd :: fds)
  = match fd with
    | Some h => match close h with
                | Some _ => [handle_id h]
                | None => []
                end
    | None => []
    end ++ closable fds.
Proof. unfold closable. simpl. destruct fd as [h|]; [|done]. by destruct (close h). Qed.

Lemma close_all_run (order : list pyfd) u :
  let r := (foldM close_fd order tt : M unit) u in
  trace r `prefix_of` map EClose (closable order)
  /\ (value r = Ok tt -> trace r = map EClose (closable order))
  /\ (forall e, value r = Raise e ->
        exists before h c after u1 e',
          order = before ++ Some h :: after
          /\ close h = Some c
          /\ snd (c u1) = Raises e'
          /\ e = Raised e'
          /\ trace r = map EClose (closable before) ++ [EClose (handle_id h)]).
Proof.
  revert u. induction order as [|fd order IH]; intros u; [by split_and!|].
  cbv zeta. cbn [foldM].
  destruct fd as [h|]; [destruct (close h) as [c|] eqn:Hclose|].
  - rewrite closable_cons, Hclose. cbn [app].
    destruct (snd (c u)) as [[]|e'] eqn:Hc.
    + assert ((close_fd tt (Some h) : M unit) u = Res [EClose (handle_id h)] (fst (c u)) (Ok tt))
        as Hstep.
      { cbn [close_fd]. rewrite Hclose. unfold call. by rewrite Hc. }
      rewrite (bind_Ok _ _ _ _ _ _ Hstep).
      destruct (IH (fst (c u))) as (IH1 & IH2 & IH3). cbv zeta in IH1, IH2, IH3.
      destruct (foldM close_fd order tt (fst (c u))) as [t2 u2 r2].
      cbn [trace world value] in *. split_and!.
      * by apply prefix_cons.
      * intros Hr. by rewrite (IH2 Hr).
      * intros e Hr.
        destruct (IH3 e Hr)
          as (before & h' & c' & after & u1 & e'' & -> & ? & ? & ? & ->).
        exists (Some h :: before), h', c', after, u1, e''. split_and!; try done.
        unfold closable. simpl. by rewrite Hclose.
    + assert ((close_fd tt (Some h) : M unit) u
              = Res [EClose (handle_id h)] (fst (c u)) (Raise (Raised e')))
        as Hstep.
      { cbn [close_fd]. rewrite Hclose. unfold call. by rewrite Hc. }
      rewrite (bind_Raise _ _ _ _ _ _ Hstep). cbn [trace value].
      split_and!; [apply prefix_cons, prefix_nil | done |].
      intros e [= <-]. by exists [], h, c, order, u, e'.
  - rewrite closable_cons, Hclose. cbn [app].
    assert ((close_fd tt (Some h) : M unit) u = Res [] u (Ok tt)) as Hstep.
    { cbn [close_fd]. by rewrite Hclose. }
    rewrite (bind_Ok _ _ _ _ _ _ Hstep). cbn [app].
    destruct (IH u) as (IH1 & IH2 & IH3). cbv zeta in IH1, IH2, IH3.
    rewrite res_eta. split_and!; try done.
    intros e Hr.
    destruct (IH3 e Hr)
      as (before & h' & c' & after & u1 & e'' & -> & ? & ? & ? & ->).
    exists (Some h :: before), h', c', after, u1, e''. split_and!; try done.
    unfold closable. simpl. by rewrite Hclose.
  - rewrite closable_cons. cbn [app].
    assert ((close_fd tt None : M unit) u = Res [] u (Ok tt)) as Hstep by done.
    rewrite (bind_Ok _ _ _ _ _ _ Hstep). cbn [app].
    destruct (IH u) as (IH1 & IH2 & IH3). cbv zeta in IH1, IH2, IH3.
    rewrite res_eta. split_and!; try done.
    intros e Hr.
    destruct (IH3 e Hr)
      as (before & h' & c' & after & u1 & e'' & -> & ? & ? & ? & ->).
    by exists (None :: before), h', c', after, u1, e''.
Qed.

Lemma close_fd_close h c u u1 (x : returned E unit) :
  close h = Some c -> c u = (u1, x) ->
  (close_fd tt (Some h) : M unit) u = Res [EClose (handle_id h)] u1 (outcome_of x).
Proof. intros Hclose Hc. cbn [close_fd]. rewrite Hclose. unfold call. by rewrite Hc. Qed.

Lemma close_all_torn (order : list pyfd) u :
  torn_down order u
            (trace ((foldM close_fd order tt : M unit) u))
            (world ((foldM close_fd order tt : M unit) u))
            (value ((foldM close_fd order tt : M unit) u)).
Proof.
  revert u. induction order as [|fd order IH]; intros u; [constructor|].
  cbn [foldM]. destruct fd as [h|]; [destruct (close h) as [c|] eqn:Hclose|].
  - destruct (c u) as [u1 [[]|e]] eqn:Hc.
    + rewrite (bind_Ok _ _ _ _ _ _ (close_fd_close h c u u1 _ Hclose Hc)).
      cbn [trace world value]. eapply torn_close; [done | done | apply IH].
    + rewrite (bind_Raise _ _ _ _ _ _ (close_fd_close h c u u1 _ Hclose Hc)).
      cbn [trace world value]. by eapply torn_raise.
  - assert ((close_fd tt (Some h) : M unit) u = Res [] u (Ok tt)) as Hstep.
    { cbn [close_fd]. by rewrite Hclose. }
    rewrite (bind_Ok _ _ _ _ _ _ Hstep). cbn [app]. rewrite res_eta.
    apply torn_skip; [done | apply IH].
  - assert ((close_fd tt None : M unit) u = Res [] u (Ok tt)) as Hstep by done.
    rewrite (bind_Ok _ _ _ _ _ _ Hstep). cbn [app]. rewrite res_eta.
    apply torn_none, IH.
Qed.

Lemma torn_down_run (order : list pyfd) u t u' r :
  torn_down order u t u' r -> (foldM close_fd order tt : M unit) u = Res t u' r.
Proof.
  induction 1 as [u|order u t u' r _ IH|h order u t u' r Hclose _ IH
                 |h c order u u1 t u' r Hclose Hc _ IH|h c order u u1 e Hclose Hc];
    cbn [foldM].
  - done.
  - assert ((close_fd tt None : M unit) u = Res [] u (Ok tt)) as Hstep by done.
    rewrite (bind_Ok _ _ _ _ _ _ Hstep), IH. done.
  - assert ((close_fd tt (Some h) : M unit) u = Res [] u (Ok tt)) as Hstep.
    { cbn [close_fd]. by rewrite Hclose. }
    rewrite (bind_Ok _ _ _ _ _ _ Hstep), IH. done.
  - rewrite (bind_Ok _ _ _ _ _ _ (close_fd_close h c u u1 _ Hclose Hc)), IH. done.
  - by rewrite (bind_Raise _ _ _ _ _ _ (close_fd_close h c u u1 _ Hclose Hc)).
Qed.

(** C2, as the code has it.  Closing a chain is the teardown of its
    handles in the reverse of the order of construction: the handles
    without a close operation are skipped, a close that returns is
    followed by the close of the handle before it, and the first
    close that raises ends the teardown: the chain's close raises the
    same exception, and the handles built before that one are not
    closed.  When all closes return, every handle with a close
    operation has been closed. *)
Theorem close_reverse_until_failure (self : @ClassicFile H U E) u :
  let order := rev (fds self) in
  let r := (ClassicFile_close self : M unit) u in
  (forall t u' x, r = Res t u' x <-> torn_down order u t u' x)
  /\ trace r `prefix_of` map EClose (closable order)
  /\ (value r = Ok tt -> trace r = map EClose (closable order))
  /\ (forall before h c after t1 u1 e,
        order = before ++ Some h :: after ->
        torn_down before u t1 u1 (Ok tt) ->
        close h = Some c ->
        snd (c u1) = Raises e ->
        r = Res (t1 ++ [EClose (handle_id h)]) (fst (c u1)) (Raise (Raised e)))
  /\ (forall e, value r = Raise e ->
        exists before h c after u1 e',
          order = before ++ Some h :: after
          /\ close h = Some c
          /\ snd (c u1) = Raises e'
          /\ e = Raised e'
          /\ trace r = map EClose (closable before) ++ [EClose (handle_id h)]).
Proof.
  intros order r. subst r. unfold ClassicFile_close. fold order.
  destruct (close_all_run order u) as (Hprefix & Hall & Hraise).
  split_and!; try done.
  - intros t u' x. split.
    + intros Hrun. pose proof (close_all_torn order u) as Htorn.
      by rewrite Hrun in Htorn.
    + apply torn_down_run.
  - intros before h c after t1 u1 e -> Hbefore%torn_down_run Hclose Hc.
    rewrite foldM_app, (bind_Ok _ _ _ _ _ _ Hbefore). cbn [foldM].
    destruct (c u1) as [u2 x] eqn:Hcu. cbn [fst snd] in *. subst x.
    by rewrite (bind_Raise _ _ _ _ _ _ (close_fd_close h c u1 u2 _ Hclose Hcu)).
Qed.

End StreamFacts.

(** ** The properties on the word count *)

Section WordCountFacts.

Import WordCount.

Local Abbreviation words := ["a"; "bb"; "c"; "dd"; "e"].

(** What the model computes for a map task, a reduce task and the
    construction of a chain. *)

Example map_word_count :
  Worker_run env "2.7" worker (map_task words) fresh
  = Res [EInit MapMode "params";
         EMap "a" "params"; EPartition "a" 2 "params";
         ECombiner (Some "a") (Some 1) (Some "1") [] false "params";
         EStatus "2 entries mapped";
         EMap "bb" "params"; EPartition "bb" 2 "params";
         ECombiner (Some "bb") (Some 1) (Some "0") [] false "params";
         EMap "c" "params"; EPartition "c" 2 "params";
         ECombiner (Some "c") (Some 1) (Some "1") [1] false "params";
         EStatus "4 entries mapped";
         EMap "dd" "params"; EPartition "dd" 2 "params";
         ECombiner (Some "dd") (Some 1) (Some "0") [1] false "params";
         EMap "e" "params"; EPartition "e" 2 "params";
         ECombiner (Some "e") (Some 1) (Some "1") [1; 1] false "params";
         EStatus "Done: 5 entries mapped";
         ECombiner None None (Some "1") [1; 1; 1] true "params";
         EAdd ByPipeline (Some "1") ("total", 3);
         ECombiner None None (Some "0") [1; 1] true "params";
         EAdd ByPipeline (Some "0") ("total", 2);
         EExternalClose]
        (ModuleState (Some (map_task words)) 5%nat) (Ok tt).
Proof. vm_compute. reflexivity. Qed.

Example reduce_word_count :
  Worker_run env "2.7" worker (reduce_task [["x"; "y"]; ["z"]]) fresh
  = Res [EInit ReduceMode "params"; EReduce2 "params";
         EStatus "2 entries reduced"; EStatus "Done: 3 entries reduced";
         EAdd ByPipeline None ("entries", 3);
         EExternalClose]
        (ModuleState (Some (reduce_task [["x"; "y"]; ["z"]])) 0%nat) (Ok tt).
Proof. vm_compute. reflexivity. Qed.

(** A reduce function that is a generator: the writes of the pipeline
    and the messages of the progress reporter interleave. *)
Example reduce_streams :
  Worker_run env "2.7" streaming (reduce_task [["x"; "y"]; ["z"]]) fresh
  = Res [EInit ReduceMode "params"; EReduce2 "params";
         EAdd ByPipeline None ("z", 1);
         EStatus "2 entries reduced";
         EAdd ByPipeline None ("x", 1);
         EAdd ByPipeline None ("y", 1);
         EStatus "Done: 3 entries reduced";
         EExternalClose]
        (ModuleState (Some (reduce_task [["x"; "y"]; ["z"]])) 0%nat) (Ok tt).
Proof. vm_compute. reflexivity. Qed.

(** An init function that swallows the exception of the channel: the
    task returns, and the entries are not mapped. *)
Example caught_refusal_skips_entries :
  Worker_run (env_with channel_down) "2.7" peeking (map_task ["a"; "b"]) fresh
  = Res [EInit MapMode "params"; EStatus "1 entries mapped"; EExternalClose]
        (ModuleState (Some (map_task ["a"; "b"])) 0%nat) (Ok tt).
Proof. vm_compute. reflexivity. Qed.

Example chain_of_three :
  ClassicFile_init "raw://x" [S1; S2; S3] "params" None None 0%nat
  = Res [EStream None None "raw://x" None;
         EStream (Some "S1") None "raw://x" None;
         EStream (Some "S2") None "raw://x.gz" (Some "params")]
        0%nat (Ok file).
Proof. reflexivity. Qed.

Example close_skips_what_has_no_close :
  (ClassicFile_close
     {| fds := [Some (closes "S1"); Some (never_closes "S2"); None;
                Some (closes "S3")] |}
   : M (@stream_event string string) nat string unit) 0%nat
  = Res [EClose "S3"; EClose "S1"] 2%nat (Ok tt).
Proof. reflexivity. Qed.

(** C4 on five entries and an interval of 2. *)
Lemma status_iter_notifications_witness :
  (forall message, send env message = None)
  /\ 0 <= 2
  /\ drain env (status_iter (Some 2) words "%s entries mapped") 0%nat
     = Res [EStatus "2 entries mapped"; EStatus "4 entries mapped";
            EStatus "Done: 5 entries mapped"]
           0%nat (Ok words)
  /\ length (notified_indices (Some 2) 5) = 2%nat.
Proof.
  split; [reflexivity|]. split; [lia|].
  destruct (status_iter_notifications env (fun _ => eq_refl) (Some 2) words
              "%s entries mapped" 0%nat ltac:(simpl; lia))
    as (_ & _ & _ & _ & Hdrain & Hcount & _).
  split; [exact Hdrain | exact (Hcount 2 eq_refl ltac:(lia))].
Defined.

(** C1 on the word count. *)
Lemma map_flushes_each_buffer_once_witness :
  combiner worker = Some sum_combiner
  /\ save worker && truthy_int (partitions worker)
     && negb (truthy_slot (reduce worker)) = false
  /\ exists t1 u1 r1,
       map_input env worker (map_task words) "params" 0%nat = Res t1 u1 r1
       /\ final_flushes t1 = []
       /\ match r1 with
          | Raise e =>
              Worker_map env worker (map_task words) "params" 0%nat
              = Res t1 u1 (Raise e)
          | Ok bufs =>
              let items := dict_items env bufs in
              mapped_entries t1 = init_left env worker (map_task words) "params" 0%nat
              /\ init_left env worker (map_task words) "params" 0%nat
                 `suffix_of` input (map_task words)
              /\ (forall part, part ∈ map fst items <-> part ∈ combined_parts t1)
              /\ NoDup (map fst items)
              /\ exists t2 u2 r2,
                  Worker_map env worker (map_task words) "params" 0%nat
                  = Res (t1 ++ t2) u2 r2
                  /\ flushed sum_combiner "params" items u1 t2 u2 r2
                  /\ final_flushes (t1 ++ t2) `prefix_of` items
                  /\ (r2 = Ok tt -> final_flushes (t1 ++ t2) = items)
          end.
Proof.
  split; [reflexivity|]. split; [reflexivity|].
  apply (map_flushes_each_buffer_once env worker (map_task words) "params" 0%nat
           sum_combiner); reflexivity.
Defined.

(** The flushes of the word count: the buffer of partition 1, which
    got the first record, then that of partition 0. *)
Example flushes_of_word_count :
  final_flushes (trace (Worker_map env worker (map_task words) "params" 0%nat))
  = [(Some "1", [1; 1; 1]); (Some "0", [1; 1])].
Proof. vm_compute. reflexivity. Qed.

(** C3 on the word count, for a reduce function of two parameters,
    for one of three, and for one of two that is a generator. *)
Lemma reduce_dispatch_witness :
  let task := reduce_task [["x"; "y"]; ["z"]] in
  let entries := status_iter (Some 2) ["z"; "x"; "y"] "%s entries reduced" in
  (reduce worker = Native (PyFunc 2 count_entries)
   /\ call_iter env (EInit ReduceMode "params") no_yield (reduce_init worker "params")
                (status_iter (status_interval worker) (reduce_ordered env worker task)
                             "%s entries reduced") 0%nat
      = Res [EInit ReduceMode "params"] 0%nat (Ok entries)
   /\ reduce_calls (trace (Worker_reduce env worker task "params" 0%nat))
      = [(2%nat, "params")]
   /\ pipeline_adds (trace (Worker_reduce env worker task "params" 0%nat))
      = [(None, ("entries", 3))]
   /\ function_adds (trace (Worker_reduce env worker task "params" 0%nat)) = [])
  /\ (reduce worker3 = Native (PyFunc 3 count_entries)
      /\ call_iter env (EInit ReduceMode "params") no_yield
                   (reduce_init worker3 "params")
                   (status_iter (status_interval worker3)
                                (reduce_ordered env worker3 task)
                                "%s entries reduced") 0%nat
         = Res [EInit ReduceMode "params"] 0%nat (Ok entries)
      /\ reduce_calls (trace (Worker_reduce env worker3 task "params" 0%nat))
         = [(3%nat, "params")]
      /\ pipeline_adds (trace (Worker_reduce env worker3 task "params" 0%nat)) = []
      /\ function_adds (trace (Worker_reduce env worker3 task "params" 0%nat))
         = [(None, ("entries", 3))])
  /\ (reduce streaming = Native (PyFunc 2 echo_entries)
      /\ Worker_reduce env streaming task "params" 0%nat
         = Res ([EInit ReduceMode "params"]
                ++ EReduce2 "params"
                   :: [EAdd ByPipeline None ("z", 1);
                       EStatus "2 entries reduced";
                       EAdd ByPipeline None ("x", 1);
                       EAdd ByPipeline None ("y", 1);
                       EStatus "Done: 3 entries reduced"])
               0%nat (Ok tt)
      /\ pipeline_adds (trace (Worker_reduce env streaming task "params" 0%nat))
         = [(None, ("z", 1)); (None, ("x", 1)); (None, ("y", 1))]).
Proof.
  intros task entries. split; [|split].
  - split; [reflexivity|]. split; [reflexivity|].
    destruct (reduce_dispatch env worker task "params" 0%nat
                (PyFunc 2 count_entries) [EInit ReduceMode "params"] 0%nat entries
                eq_refl eq_refl) as [Htwo _].
    destruct (Htwo eq_refl) as (_ & Hcalls & Hpipeline & Hfunction).
    split; [exact Hcalls|]. split; [exact Hpipeline | exact Hfunction].
  - split; [reflexivity|]. split; [reflexivity|].
    destruct (reduce_dispatch env worker3 task "params" 0%nat
                (PyFunc 3 count_entries) [EInit ReduceMode "params"] 0%nat entries
                eq_refl eq_refl) as [_ Hthree].
    destruct (Hthree eq_refl) as (_ & Hcalls & Hpipeline & Hfunction).
    split; [exact Hcalls|]. split; [exact Hpipeline | exact Hfunction].
  - split; [reflexivity|].
    destruct (reduce_dispatch env streaming task "params" 0%nat
                (PyFunc 2 echo_entries) [EInit ReduceMode "params"] 0%nat entries
                eq_refl eq_refl) as [Htwo _].
    destruct (Htwo eq_refl) as (Hrun & _ & Hpipeline & _).
    split; [exact Hrun | exact Hpipeline].
Defined.

(** C5 as the code has it, on a run that returns and on a run whose
    map function raises. *)
Lemma run_releases_after_success_witness :
  version worker = "2.7"
  /\ Worker_run env "2.7" worker (map_task ["a"]) fresh
     = Res ([] ++ trace (dispatch env worker (map_task ["a"]) "params" 0%nat)
               ++ [EExternalClose])
           (ModuleState (Some (map_task ["a"]))
              (world (dispatch env worker (map_task ["a"]) "params" 0%nat)))
           (Ok tt)
  /\ Worker_run env "2.7" worker (map_task ["a"; "?"; "c"]) fresh
     = Res ([] ++ trace (dispatch env worker (map_task ["a"; "?"; "c"]) "params" 0%nat))
           (ModuleState (Some (map_task ["a"; "?"; "c"]))
              (world (dispatch env worker (map_task ["a"; "?"; "c"]) "params" 0%nat)))
           (Raise (Raised "bad word"))
  /\ EExternalClose ∉ trace (Worker_run env "2.7" worker
                               (map_task ["a"; "?"; "c"]) fresh).
Proof.
  split; [reflexivity|].
  destruct (run_releases_after_success env worker (map_task ["a"]) "2.7" fresh eq_refl)
    as [_ Hgood].
  destruct (run_releases_after_success env worker (map_task ["a"; "?"; "c"]) "2.7"
              fresh eq_refl) as [_ Hbad].
  split; [exact Hgood|]. exact Hbad.
Defined.

(** The progress reporter on a channel that refuses the second
    periodic message. *)
Example reporter_stops_at_refusal_example :
  let refusing := env_with (channel_refusing "4 entries mapped") in
  0 <= 2
  /\ notifications (Some 2) "%s entries mapped" (Z.of_nat (length words))
     = ["2 entries mapped"] ++ "4 entries mapped" :: ["Done: 5 entries mapped"]
  /\ Forall (fun m => send refusing m = None) ["2 entries mapped"]
  /\ send refusing "4 entries mapped" = Some "refused"
  /\ drain refusing (status_iter (Some 2) words "%s entries mapped") 0%nat
     = Res (map EStatus (["2 entries mapped"] ++ ["4 entries mapped"]))
           0%nat (Raise (Raised "refused")).
Proof.
  intros refusing.
  assert (Forall (fun m => send refusing m = None) ["2 entries mapped"]) as Hok.
  { constructor; [reflexivity | constructor]. }
  split; [lia|]. split; [reflexivity|]. split; [exact Hok|]. split; [reflexivity|].
  apply (reporter_stops_at_refusal refusing (Some 2) words "%s entries mapped"
           0%nat ["2 entries mapped"] "4 entries mapped" ["Done: 5 entries mapped"]
           "refused"); [simpl; lia | reflexivity | exact Hok | reflexivity].
Qed.





(** *** Where the code departs from the claims *)

(** C2: the close of the second of three handles raises; the third
    and the second are closed and the close of the first is not
    attempted. *)
Lemma close_stops_at_first_failure :
  let r := (ClassicFile_close file : M (@stream_event string string) nat string unit)
             0%nat in
  value r = Raise (Raised "close failed")
  /\ trace r = [EClose "S3"; EClose "S2"]
  /\ EClose "S1" ∉ trace r.
Proof.
  intros r. split; [reflexivity|]. split; [reflexivity|].
  change (trace r) with [EClose (Params:=string) "S3"; EClose "S2"].
  intros Hin. apply elem_of_cons in Hin as [Hin|Hin]; [discriminate|].
  apply elem_of_cons in Hin as [Hin|Hin]; [discriminate|].
  by apply elem_of_nil in Hin.
Qed.

(** C5: the map function raises on the second entry; the run raises
    the same exception and [external.close()] is not called. *)
Lemma run_failure_skips_close :
  let r := Worker_run env "2.7" worker (map_task ["a"; "?"; "c"]) fresh in
  value r = Raise (Raised "bad word")
  /\ trace r = [EInit MapMode "params";
                EMap "a" "params"; EPartition "a" 2 "params";
                ECombiner (Some "a") (Some 1) (Some "1") [] false "params";
                EStatus "2 entries mapped";
                EMap "?" "params"]
  /\ EExternalClose ∉ trace r.
Proof.
  intros r.
  assert (trace r = [EInit MapMode "params";
                     EMap "a" "params"; EPartition "a" 2 "params";
                     ECombiner (Some "a") (Some 1) (Some "1") [] false "params";
                     EStatus "2 entries mapped";
                     EMap "?" "params"]) as Htrace by (vm_compute; reflexivity).
  split; [vm_compute; reflexivity|]. split; [exact Htrace|].
  rewrite Htrace. intros Hin.
  repeat (apply elem_of_cons in Hin as [Hin|Hin]; [discriminate|]).
  by apply elem_of_nil in Hin.
Qed.


End WordCountFacts.

(** ** More of the orchestrator and of the reduce pipeline *)

Section RunMore.

Context {K V Entry Params Buf U E : Type}.
Variable env : @Env K V Entry Params Buf U E.

Local Abbreviation event := (@event K V Entry Params Buf).
Local Abbreviation M := (M event U E).

Implicit Types (w : @Worker K V Entry Params Buf U E) (p : Params).
Implicit Types (t : list event) (ev : event).


Lemma inv_map_params w task p :
  inv (fun ev => forall p', passed_params ev = Some p' -> p' = p) (fun _ => True)
      (Worker_map env w task p).
Proof.
  unfold Worker_map. destruct (_ && _); [by apply inv_raise|]. apply inv_bind.
  - unfold map_input. apply inv_bind.
    + apply inv_call_init; try done. by intros p' [= <-].
    + intros r. apply inv_for_in; try done. intros entry bufs.
      unfold map_entry, call_map. apply inv_bind.
      * destruct (map_ w); repeat inv_step; try done. by intros p' [= <-].
      * intros records. apply inv_foldM. intros bufs' [key val]. unfold map_record.
        apply inv_bind.
        -- destruct (truthy_int (partitions w)); repeat inv_step; try done.
           by intros p' [= <-].
        -- intros part. destruct (combiner w); unfold call_combiner, add_all, add;
             repeat inv_step; try done. by intros p' [= <-].
  - intros bufs. apply inv_foldM. intros [] item. unfold flush.
    destruct (combiner w); unfold call_combiner, add_all, add;
      repeat inv_step; try done. by intros p' [= <-].
Qed.

Lemma inv_reduce_params w task p :
  inv (fun ev => forall p', passed_params ev = Some p' -> p' = p) (fun _ => True)
      (Worker_reduce env w task p).
Proof.
  unfold Worker_reduce, reduce_entries. apply inv_bind.
  - apply inv_call_init; try done. by intros p' [= <-].
  - intros r. destruct (reduce w) as [|f|]; try by apply inv_raise.
    destruct (argcount f <? 3)%nat.
    + unfold call_reduce2. destruct (argcount f =? 2)%nat; [|by apply inv_raise].
      apply inv_bind; [|intros; apply inv_ret].
      apply inv_call_iter; try done. by intros p' [= <-].
    + unfold call_reduce3. destruct (argcount f =? 3)%nat; [|by apply inv_raise].
      apply inv_bind; [|intros; apply inv_ret].
      apply inv_call_iter; try done. by intros p' [= <-].
Qed.

(** X2.  One params object goes to every call of a run: the init,
    map, partition, combiner and reduce functions and
    [external.prepare] are all passed [ext_params] when the function
    of the task's mode is an external program, and all passed [params]
    when it is not. *)
Theorem run_passes_one_params running w task (s : @module_state Entry U) :
  let p := if is_external w (mode task) then ext_params w else params w in
  Forall (fun ev => forall p', passed_params ev = Some p' -> p' = p)
         (trace (Worker_run env running w task s)).
Proof.
  intros p.
  assert (forall w' : @Worker K V Entry Params Buf U E,
            Forall (fun ev => forall p', passed_params ev = Some p' -> p' = p)
                   (trace (dispatch env w' task p (user_world s)))) as Hdispatch.
  { intros w'. unfold dispatch. destruct (mode task);
      [apply inv_map_params | apply inv_reduce_params]. }
  unfold Worker_run, bind_Task, in_run, bind at 1. cbn [trace world value].
  destruct (negb _); [constructor|]. subst p.
  destruct (is_external w (mode task)); unfold bind, emit, ret;
    cbn [trace world value fst snd user_world global_Task];
    match goal with
    | |- context [dispatch env ?w0 task ?p0 (user_world s)] =>
        specialize (Hdispatch w0);
        destruct (dispatch env w0 task p0 (user_world s)) as [t u' [[]|e]]
    end; cbn [trace world value app] in *; rewrite ?app_nil_r;
    repeat first [apply Forall_cons; split | apply Forall_app; split];
    try done; try constructor; by intros p' [= <-].
Qed.

(** X3.  A reduce task has one sink: whatever the reduce function and
    its calling convention, every write of the task, by the pipeline
    or by the function, goes to the sink of partition [None], and the
    task calls no map, partition or combiner function. *)
Theorem reduce_has_one_sink w task p (u : U) :
  Forall reduce_event (trace (Worker_reduce env w task p u)).
Proof.
  assert (inv reduce_event (fun _ => True) (Worker_reduce env w task p)) as Hinv.
  { unfold Worker_reduce, reduce_entries. apply inv_bind; [by apply inv_call_init|].
    intros r. destruct (reduce w) as [|f|]; try by apply inv_raise.
    destruct (argcount f <? 3)%nat.
    - unfold call_reduce2. destruct (argcount f =? 2)%nat; [|by apply inv_raise].
      apply inv_bind; [by apply inv_call_iter | intros; apply inv_ret].
    - unfold call_reduce3. destruct (argcount f =? 3)%nat; [|by apply inv_raise].
      apply inv_bind; [by apply inv_call_iter | intros; apply inv_ret]. }
  apply (Hinv u).
Qed.

(** X4.  A reduce task without a reduce function fails late: the init
    function is called, and may consume entries and send status
    messages, before the missing function is found; the task then
    raises, with no call of a reduce function and no write. *)
Theorem reduce_without_function w task p (u : U) :
  (forall f, reduce w <> Native f) ->
  let r := Worker_reduce env w task p u in
  value r <> Ok tt
  /\ (exists statuses,
        trace r = EInit ReduceMode p :: statuses /\ Forall is_status statuses)
  /\ reduce_calls (trace r) = []
  /\ pipeline_adds (trace r) = []
  /\ function_adds (trace r) = [].
Proof.
  intros Hnone r.
  destruct (call_iter_trace env (EInit ReduceMode p) (reduce_init w p)
              (status_iter (status_interval w) (reduce_ordered env w task)
                           "%s entries reduced") u) as (statuses & Htrace & Hst).
  assert (trace r = EInit ReduceMode p :: statuses /\ value r <> Ok tt) as [Hr Hv].
  { subst r. unfold Worker_reduce, reduce_entries.
    destruct (bind_cases
                (call_iter env (EInit ReduceMode p) no_yield (reduce_init w p)
                   (status_iter (status_interval w) (reduce_ordered env w task)
                                "%s entries reduced"))
                (fun g => match reduce w with
                          | Native f =>
                              if (argcount f <? 3)%nat
                              then call_reduce2 env f g p
                              else call_reduce3 env f g p
                          | _ => raise AttributeError
                          end) u)
      as [(t1 & u1 & a & Hinit & ->)|(t1 & u1 & e & Hinit & ->)];
      rewrite Hinit in Htrace; cbn [trace] in Htrace; subst t1; cbn [trace value].
    - destruct (reduce w) as [|f|] eqn:Hf; [|by destruct (Hnone f)|];
        cbn [trace value raise]; by rewrite app_nil_r.
    - done. }
  split; [done|]. split; [by exists statuses|]. rewrite Hr.
  destruct (projections_status _ Hst) as (Hrc & Hpa & Hfa).
  change (EInit ReduceMode p :: statuses) with ([EInit ReduceMode p] ++ statuses).
  rewrite <- reduce_calls_app, <- pipeline_adds_app, <- function_adds_app.
  by rewrite Hrc, Hpa, Hfa.
Qed.

End RunMore.

(** ** More of the map pipeline *)

Section MapMore.

Context {K V Entry Params Buf U E : Type}.
Variable env : @Env K V Entry Params Buf U E.

Local Abbreviation event := (@event K V Entry Params Buf).
Local Abbreviation M := (M event U E).

Implicit Types (w : @Worker K V Entry Params Buf U E) (p : Params).
Implicit Types (t : list event) (ev : event).














Lemma buffers_unpartitioned w task p (u : U) t1 u1 bufs :
  truthy_int (partitions w) = false ->
  map_input env w task p u = Res t1 u1 (Ok bufs) ->
  Forall (fun item : option string * Buf => fst item = None) (dict_items env bufs).
Proof.
  intros Hfalsy Hin.
  pose proof (inv_map_input env w task p u) as [Hev _]. rewrite Hin in Hev.
  cbn [trace] in Hev. apply map_input_items in Hin as [Hbufs _].
  apply Forall_forall. intros [part buf] Hitem.
  cbn [fst]. assert (part ∈ map fst (dict_items env bufs)) as Hsome.
  { apply list_elem_of_fmap. by exists (part, buf). }
  apply Hbufs in Hsome. unfold combined_parts in Hsome.
  apply list_elem_of_omap in Hsome as (ev & Hev1 & Hev2).
  rewrite Forall_forall in Hev. apply Hev in Hev1.
  destruct ev as [| | | |key val part' buf' final p'| | | | |]; try done.
  destruct final; [done|]. injection Hev2 as ->.
  destruct key, val; try done. simpl in Hev1. by apply Hev1.
Qed.

Lemma one_key_one_item {A B} (l : list (A * B)) (a : A) :
  NoDup (map fst l) -> Forall (fun item => fst item = a) l -> (length l <= 1)%nat.
Proof.
  destruct l as [|[a1 b1] [|[a2 b2] l]]; cbn [length]; try lia.
  intros Hnodup Hall. exfalso.
  apply Forall_cons in Hall as [Ha1 Hall]. apply Forall_cons in Hall as [Ha2 _].
  cbn [fst] in *. subst a1 a2.
  apply NoDup_cons in Hnodup as [Hnotin _]. apply Hnotin. simpl. left.
Qed.

(** X7.  Without a partition count a combiner has one buffer: in
    every map run with a partition count of 0 or [None] there is at
    most one flush, and it is of the buffer of partition [None]. *)
Theorem map_without_partitions_one_buffer w task p (u : U) :
  truthy_int (partitions w) = false ->
  let r := Worker_map env w task p u in
  Forall (fun item => fst item = None) (final_flushes (trace r))
  /\ (length (final_flushes (trace r)) <= 1)%nat.
Proof.
  intros Hfalsy r. subst r. unfold Worker_map.
  rewrite Hfalsy, andb_false_r. cbn [andb].
  destruct (bind_cases (map_input env w task p)
              (fun bufs => foldM (flush w p) (dict_items env bufs) tt) u)
    as [(t1 & u1 & bufs & Hin & ->)|(t1 & u1 & e & Hin & ->)]; cbn [trace].
  - assert (final_flushes t1 = []) as Hff1.
    { apply (final_flushes_input w p).
      pose proof (inv_map_input env w task p u) as [Hev _]. by rewrite Hin in Hev. }
    rewrite <- final_flushes_app, Hff1. cbn [app].
    pose proof (buffers_unpartitioned w task p u t1 u1 bufs Hfalsy Hin) as Hnone.
    pose proof (one_key_one_item (dict_items env bufs) None
                  (proj2 (map_input_items env w task p u t1 u1 bufs Hin)) Hnone)
      as Hone.
    destruct (combiner w) as [c|] eqn:Hc.
    + destruct (flushed_prefix c p _ _ _ _ _ (flush_flushed w p c (dict_items env bufs) u1 Hc))
        as [[rest Hprefix] _].
      rewrite Hprefix in Hnone, Hone. apply Forall_app in Hnone as [Hnone _].
      rewrite length_app in Hone. split; [done | lia].
    + assert (trace (foldM (flush w p) (dict_items env bufs) tt u1) = []) as ->.
      { destruct (dict_items env bufs) as [|item items]; [done|].
        cbn [foldM]. unfold bind, flush. by rewrite Hc. }
      split; [constructor | simpl; lia].
  - assert (final_flushes t1 = []) as ->.
    { apply (final_flushes_input w p).
      pose proof (inv_map_input env w task p u) as [Hev _]. by rewrite Hin in Hev. }
    split; [constructor | simpl; lia].
Qed.

(** One record with a combiner: what is in the buffers after it. *)
Lemma map_record_buffers w p c (route : K -> Z) (step : K -> V -> Buf -> Buf)
    bufs record (u : U) bufs' :
  combiner w = Some c ->
  (forall key n (u : U),
     partitions w = Some n -> snd (partition w key n p u) = Returns (route key)) ->
  (forall key val buf (u : U),
     exists out,
       snd (c (Some key) (Some val) buf false p u) = Returns (out, step key val buf)) ->
  value (map_record env w p bufs record u) = Ok bufs' ->
  bufs' = buffer_record (empty_buf env) (sink_of (partitions w) route) step bufs record.
Proof.
  intros Hc Hroute Hstep. unfold map_record, buffer_record, sink_of.
  destruct record as [key val]. rewrite Hc. cbn [fst snd].
  assert (forall part (u' : U) bufs',
            value ((r <- call_combiner c (Some key) (Some val) part
                           (default (empty_buf env)
                              (dict_get
                                 (match dict_get bufs part with
                                  | None => dict_set bufs part (empty_buf env)
                                  | Some _ => bufs
                                  end) part)) false p ;;
                    add_all part (fst r) ;;;
                    ret (dict_set
                           match dict_get bufs part with
                           | None => dict_set bufs part (empty_buf env)
                           | Some _ => bufs
                           end part (snd r)) : M _) u') = Ok bufs' ->
            bufs' = dict_set bufs part
                             (step key val (default (empty_buf env) (dict_get bufs part))))
    as Hpart.
  { intros part u' bufs''. unfold bind at 1. rewrite call_combiner_run.
    assert (default (empty_buf env)
              (dict_get
                 (match dict_get bufs part with
                  | None => dict_set bufs part (empty_buf env)
                  | Some _ => bufs
                  end) part)
            = default (empty_buf env) (dict_get bufs part)) as ->.
    { destruct (dict_get bufs part) eqn:Hb; [by rewrite Hb|].
      rewrite dict_get_set. by destruct (decide (part = part)). }
    destruct (Hstep key val (default (empty_buf env) (dict_get bufs part)) u')
      as [out ->]. cbn [fst snd].
    unfold bind. rewrite add_all_run. cbn [ret value]. intros [= <-].
    destruct (dict_get bufs part) eqn:Hb; [done | by rewrite dict_set_set]. }
  destruct (truthy_int (partitions w)) eqn:Htruthy.
  - destruct (partitions w) as [n|] eqn:Hn; [|done]. cbn [default from_option id].
    assert ((r <- call (EPartition key n p) (partition w key n p) ;;
             (ret (Some (str r)) : M _)) u
            = Res [EPartition key n p] (fst (partition w key n p u))
                  (Ok (Some (str (route key))))) as Hm.
    { unfold bind, call, ret. cbn [trace world value].
      rewrite (Hroute key n u eq_refl). cbn [outcome_of]. done. }
    rewrite (bind_Ok _ _ _ _ _ _ Hm). cbn [value]. apply Hpart.
  - rewrite bind_ret_l. apply Hpart.
Qed.

Lemma foldM_records_buffers w p c (route : K -> Z) (step : K -> V -> Buf -> Buf)
    records bufs (u : U) bufs' :
  combiner w = Some c ->
  (forall key n (u : U),
     partitions w = Some n -> snd (partition w key n p u) = Returns (route key)) ->
  (forall key val buf (u : U),
     exists out,
       snd (c (Some key) (Some val) buf false p u) = Returns (out, step key val buf)) ->
  value (foldM (map_record env w p) records bufs u) = Ok bufs' ->
  bufs' = foldl (buffer_record (empty_buf env) (sink_of (partitions w) route) step)
                bufs records.
Proof.
  intros Hc Hroute Hstep. revert bufs u.
  induction records as [|record records IH]; intros bufs u; [by intros [= <-]|].
  cbn [foldM foldl].
  destruct (bind_cases (map_record env w p bufs record)
              (foldM (map_record env w p) records) u)
    as [(t1 & u1 & bufs1 & Hrec & ->)|(t1 & u1 & e & Hrec & ->)];
    cbn [value]; [|done].
  intros Hv. apply IH in Hv as ->. f_equal.
  apply (map_record_buffers w p c route step bufs record u bufs1 Hc Hroute Hstep).
  by rewrite Hrec.
Qed.

(** X8.  With a combiner every partition has its own buffer, which
    lives for the whole task: in a map run that returns, for a map
    function that returns [records entry], a partition function that
    returns [route key] and a combiner that leaves [step key val buf]
    in the buffer, the buffers flushed at the end are those obtained
    by stepping, for every record of every entry in order, the buffer
    of the record's partition, each from [{}]; they are flushed in the
    order of [bufs.items()]. *)
Theorem map_combines_per_partition w task p (u : U) f c (route : K -> Z)
    (records : Entry -> list (K * V)) (step : K -> V -> Buf -> Buf) :
  combiner w = Some c ->
  map_ w = Native f ->
  (forall entry (u : U), snd (f entry p u) = Returns (records entry)) ->
  (forall key n (u : U),
     partitions w = Some n -> snd (partition w key n p u) = Returns (route key)) ->
  (forall key val buf (u : U),
     exists out,
       snd (c (Some key) (Some val) buf false p u) = Returns (out, step key val buf)) ->
  let r := Worker_map env w task p u in
  value r = Ok tt ->
  final_flushes (trace r)
  = dict_items env
      (buffers_of (empty_buf env) (sink_of (partitions w) route) step
         (flat_map records (init_left env w task p u))).
Proof.
  intros Hc Hf Hrecords Hroute Hstep r Hok. subst r. unfold Worker_map in *.
  destruct (_ && _); [done|].
  destruct (bind_cases (map_input env w task p)
              (fun bufs => foldM (flush w p) (dict_items env bufs) tt) u)
    as [(t1 & u1 & bufs & Hin & Hrun)|(t1 & u1 & e & Hin & Hrun)];
    rewrite Hrun in Hok |- *; [|done]. clear Hrun. cbn [trace value] in *.
  assert (final_flushes t1 = []) as Hff1.
  { apply (final_flushes_input w p).
    pose proof (inv_map_input env w task p u) as [Hev _]. by rewrite Hin in Hev. }
  destruct (flushed_prefix c p _ _ _ _ _ (flush_flushed w p c (dict_items env bufs) u1 Hc))
    as [_ Hall].
  rewrite <- final_flushes_app, Hff1, (Hall Hok). cbn [app]. f_equal. clear Hall Hok.
  unfold map_input, init_left in *.
  apply bind_inv_Ok in Hin as (t0 & u0 & g' & t2 & Hinit & Hloop & ->).
  rewrite Hinit. cbn [value].
  unfold for_in in Hloop. unfold buffers_of, remaining.
  destruct (gen_exhausted g') eqn:Hex.
  - by injection Hloop as _ _ <-.
  - pose proof (post_for_items env
      (fun t rest (s : dict Buf) =>
         foldl (buffer_record (empty_buf env) (sink_of (partitions w) route) step)
               s (flat_map records rest)
         = foldl (buffer_record (empty_buf env) (sink_of (partitions w) route) step)
                 [] (flat_map records (gen_iterator g')))
      (gen_interval g') (gen_template g') (map_entry env w p)) as Hfor.
    cbv beta in Hfor.
    unshelve epose proof
      (Hfor _ _ (gen_iterator g') (gen_n g') [] [] eq_refl u0) as Hdone.
    3:{ rewrite Hloop in Hdone. by cbn [trace value flat_map foldl] in Hdone. }
    + by intros t t' rest s Hs Ht'.
    + intros t item rest s Hs u'. unfold map_entry, call_map. rewrite Hf.
      destruct (bind_cases (call (EMap item p) (f item p))
                  (fun rs => foldM (map_record env w p) rs s) u')
        as [(t3 & u3 & rs & Hcall & ->)|(t3 & u3 & e & Hcall & ->)];
        cbn [trace value]; [|done].
      unfold call in Hcall. rewrite Hrecords in Hcall. injection Hcall as _ _ <-.
      destruct (value (foldM _ _ _ _)) as [s'|e] eqn:Hv; [|done].
      apply (foldM_records_buffers w p c route step _ _ _ _ Hc Hroute Hstep) in Hv.
      rewrite <- Hs. cbn [flat_map]. by rewrite foldl_app, Hv.
Qed.

End MapMore.

(** ** More of the stream chain *)

Section StreamMore.

Context {H Params U E : Type}.

Local Abbreviation pyfd := (@pyfd H U E).
Local Abbreviation stream_fn := (@stream_fn H Params U E).
Local Abbreviation stream_event := (@stream_event H Params).
Local Abbreviation M := (M stream_event U E).

Implicit Types (params : Params) (fd : pyfd) (size : option Z) (url : string).
Implicit Types (stream : stream_fn) (streams : list stream_fn) (u : U).
Implicit Types (t : list stream_event) (fds : list pyfd).

Lemma built_lengths params streams fd size url u t fds u' :
  built params streams fd size url u t fds u' ->
  length fds = length streams /\ length t = length streams.
Proof.
  induction 1 as [|? ? ? ? ? ? ? ? ? ? ? ? ? ? _ _ _ _ [IH1 IH2]]; [done|].
  cbn [length]. by rewrite IH1, IH2.
Qed.

(** X9.  A chain that was built holds one handle for every stage, in
    the order of the stages, and every stage was called once; there is
    a last handle, the one the pipeline reads from or writes to,
    exactly when there is a stage. *)
Theorem chain_one_handle_per_stage url streams params fd size u t u' self :
  ClassicFile_init url streams params fd size u = Res t u' (Ok self) ->
  length (fds self) = length streams
  /\ length t = length streams
  /\ (fds_last self = None <-> streams = []).
Proof.
  unfold ClassicFile_init. intros Hrun.
  apply bind_inv_Ok in Hrun as (t1 & u1 & st & t2 & Hfold & Hret & ->).
  injection Hret as <- <- <-. cbn [fds].
  apply stages_built in Hfold as (fds' & Hbuilt & ->).
  apply built_lengths in Hbuilt as [Hfds Ht]. rewrite !app_nil_r, app_nil_l.
  split_and!; try done. unfold fds_last. cbn [fds]. rewrite last_None.
  split; intros Hnil.
  - rewrite Hnil in Hfds. by destruct streams.
  - rewrite Hnil in Hfds. by destruct fds'.
Qed.

Lemma stage_calls_once params st stream :
  post (ClassicFile_stage params st stream)
       (fun t r => Forall is_stream_call t /\ (length t <= 1)%nat
                   /\ forall e, r = Raise e ->
                                match e with
                                | TypeError | ValueError | Raised _ => True
                                | _ => False
                                end).
Proof.
  intros u. unfold ClassicFile_stage, call_stream, bind.
  destruct (_ =? _)%nat; [|by split_and!; [constructor | simpl; lia | intros e [= <-]]].
  unfold call. cbn [trace world value].
  destruct (snd (body stream _ _ _ _ u)) as [[| | |]|e]; cbn [outcome_of ret raise
    trace world value app length]; split_and!; try lia; try by repeat constructor.
  all: try by intros e' [= <-]. all: by intros e' [=].
Qed.

(** X10.  Building a chain never closes a handle, and calls each stage
    at most once, the stages in order up to the first that fails; what
    can leave it is the exception of a stage, the [TypeError] of a
    stage with the wrong number of parameters, or the [ValueError] of
    a tuple that has neither two nor three members.  So when a stage
    fails, the handles of the stages before it stay open. *)
Theorem chain_construction_never_closes url streams params fd size u :
  let r := ClassicFile_init url streams params fd size u in
  Forall is_stream_call (trace r)
  /\ (length (trace r) <= length streams)%nat
  /\ forall e, value r = Raise e ->
               match e with
               | TypeError | ValueError | Raised _ => True
               | _ => False
               end.
Proof.
  intros r. subst r. unfold ClassicFile_init.
  assert (forall st u,
            let r := foldM (ClassicFile_stage params) streams st u in
            Forall is_stream_call (trace r)
            /\ (length (trace r) <= length streams)%nat
            /\ forall e, value r = Raise e ->
                         match e with
                         | TypeError | ValueError | Raised _ => True
                         | _ => False
                         end) as Hfold.
  { clear. induction streams as [|stream streams IH]; intros st u; cbv zeta.
    - split_and!; [constructor | done | by intros e [=]].
    - cbn [foldM length].
      destruct (stage_calls_once params st stream u) as (Hc & Hl & He).
      destruct (bind_cases (ClassicFile_stage params st stream)
                  (foldM (ClassicFile_stage params) streams) u)
        as [(t1 & u1 & st1 & Hstage & ->)|(t1 & u1 & e & Hstage & ->)];
        rewrite Hstage in Hc, Hl, He; cbn [trace value] in *.
      + destruct (IH st1 u1) as (Hc' & Hl' & He'). split_and!.
        * by apply Forall_app.
        * rewrite length_app. lia.
        * done.
      + split_and!; [done | lia | done]. }
  destruct (Hfold (ChainState [] fd size url) u) as (Hc & Hl & He).
  destruct (bind_cases (foldM (ClassicFile_stage params) streams
                              (ChainState [] fd size url))
              (fun st => ret {| fds := cs_fds st |}) u)
    as [(t1 & u1 & st1 & Hrun & ->)|(t1 & u1 & e & Hrun & ->)];
    rewrite Hrun in Hc, Hl, He; cbn [trace value ret] in *.
  - rewrite app_nil_r. split_and!; [done | done | by intros e [=]].
  - split_and!; [done | done |]. intros e0 [= <-]. by apply He.
Qed.

Lemma open_hook_passes : passes_handle (@open_hook H Params U E).
Proof. split; [done|]. intros fd size url mp u r. simpl. by intros [= <-]. Qed.

Lemma run_open_hook_passes input_status :
  passes_handle (@run_open_hook H Params U E input_status).
Proof.
  split; [done|]. intros fd size url mp u r. simpl.
  destruct (snd (input_status size u)); simpl; [by intros [= <-] | done].
Qed.

(** The running handle after some stages is the last handle they
    made, or the one given when there was no stage. *)
Lemma stages_state params streams :
  forall acc fd size url u t u' st,
    foldM (ClassicFile_stage params) streams (ChainState acc fd size url) u
    = Res t u' (Ok st) ->
    exists fds', cs_fds st = acc ++ fds' /\ cs_fd st = default fd (last fds').
Proof.
  induction streams as [|stream streams IH]; intros acc fd size url u t u' st Hrun.
  - injection Hrun as <- <- <-. exists []. by rewrite app_nil_r.
  - cbn [foldM] in Hrun.
    apply bind_inv_Ok in Hrun as (t1 & u1 & st1 & t2 & Hstage & Hrest & ->).
    apply ClassicFile_stage_Ok in Hstage
      as (r & fd' & size' & url' & _ & _ & _ & _ & ->).
    cbn [cs_fd cs_size cs_url cs_fds] in *.
    apply IH in Hrest as (fds'' & -> & ->).
    exists (fd' :: fds''). split; [by rewrite <- app_assoc|].
    rewrite last_cons. by destruct (last fds'').
Qed.

Lemma passing_stage params st stream u t u' st' :
  passes_handle stream ->
  ClassicFile_stage params st stream u = Res t u' (Ok st') ->
  st' = ChainState (cs_fds st ++ [cs_fd st]) (cs_fd st) (cs_size st) (cs_url st)
  /\ exists ev, t = [ev] /\ is_stream_call ev.
Proof.
  intros [_ Hpass] Hstage.
  apply ClassicFile_stage_Ok in Hstage
    as (r & fd' & size' & url' & _ & Hbody & Hr & -> & ->).
  specialize (Hpass (cs_fd st) (cs_size st) (cs_url st)
                (if (argcount stream =? 4)%nat then Some params else None) u r).
  rewrite Hbody in Hpass. rewrite (Hpass eq_refl) in Hr. injection Hr as <- <- <-.
  split; [done|]. by eexists.
Qed.

(** X11.  The chain of an input ends with [open_hook], which hands on
    the handle it was given: the handle the pipeline reads from is the
    one made by the last stage that is configured, the reader if there
    is one, and the chain holds that handle twice, as the handle of
    that stage and as the handle of the hook. *)
Theorem input_chain_reads_the_reader (self : @StreamKeys H Params U E)
    mode params url u t u' (file : @ClassicFile H U E) :
  (self_open_hook self = open_hook
   \/ exists input_status, self_open_hook self = run_open_hook input_status) ->
  opener self mode DirIn params url u = Res t u' (Ok file) ->
  let configured := omap id (input_stream_of self mode ++ [reader_of self mode]) in
  exists t0 u0 (chain : @ClassicFile H U E) ev,
    ClassicFile_init url configured params None None u = Res t0 u0 (Ok chain)
    /\ t = t0 ++ [ev] /\ is_stream_call ev
    /\ fds file = fds chain ++ [default None (fds_last chain)]
    /\ fds_last file = Some (default None (fds_last chain))
    /\ (configured <> [] ->
        exists before h, fds chain = before ++ [h] /\ fds file = before ++ [h; h]).
Proof.
  intros Hhook Hopen configured.
  assert (passes_handle (self_open_hook self)) as Hpass.
  { destruct Hhook as [-> | [input_status ->]];
      [apply open_hook_passes | apply run_open_hook_passes]. }
  unfold opener, opener_streams, ClassicFile_init in Hopen.
  assert (omap id (input_stream_of self mode
                   ++ [reader_of self mode; Some (self_open_hook self)])
          = configured ++ [self_open_hook self]) as Hstreams.
  { subst configured. rewrite !omap_app, <- app_assoc. f_equal.
    by destruct (reader_of self mode). }
  rewrite Hstreams in Hopen.
  apply bind_inv_Ok in Hopen as (t1 & u1 & st & t2 & Hfold & Hret & ->).
  injection Hret as <- <- <-. rewrite app_nil_r.
  rewrite foldM_app in Hfold.
  apply bind_inv_Ok in Hfold as (t0 & u0 & st0 & t3 & Hconf & Hlast & ->).
  cbn [foldM] in Hlast.
  apply bind_inv_Ok in Hlast as (t4 & u4 & st4 & t5 & Hstage & Hret & ->).
  injection Hret as <- <- <-. rewrite app_nil_r.
  apply passing_stage in Hstage as [-> (ev & -> & Hev)]; [|done].
  pose proof Hconf as Hstate. apply stages_state in Hstate as (fds' & Hfds & Hfd).
  rewrite app_nil_l in Hfds.
  pose proof Hconf as Hbuilt. apply stages_built in Hbuilt as (fds'' & Hbuilt & Hfds'').
  apply built_lengths in Hbuilt as [Hlen _]. rewrite app_nil_l in Hfds''.
  exists t0, u0, {| fds := cs_fds st0 |}, ev. cbn [fds cs_fds]. unfold fds_last.
  cbn [fds]. rewrite Hfd, Hfds. split_and!; try done.
  - unfold ClassicFile_init. erewrite bind_Ok by exact Hconf.
    unfold ret. cbn [trace world value]. by rewrite app_nil_r, Hfds.
  - by rewrite last_snoc.
  - intros Hne. destruct (last fds') as [h|] eqn:Hlast.
    + apply last_Some in Hlast as [before ->]. exists before, h. split; [done|].
      by rewrite <- app_assoc.
    + apply last_None in Hlast. rewrite Hlast, Hfds'' in Hfds.
      rewrite Hfds in Hlen. by destruct configured.
Qed.

End StreamMore.

(** ** More on the progress reporter *)

Section StatusMore.

Context {K V Entry Params Buf U E : Type}.
Variable env : @Env K V Entry Params Buf U E.

Local Abbreviation event := (@event K V Entry Params Buf).
Local Abbreviation M := (M event U E).

Lemma report_due_opp (k n : Z) : report_due (Some (- k)) n = report_due (Some k) n.
Proof.
  unfold report_due, truthy_int. simpl.
  destruct (Z.eqb_spec k 0) as [->|Hk]; [done|].
  destruct (Z.eqb_spec (- k) 0) as [|_]; [lia|]. simpl.
  destruct (Z.eqb_spec ((n + 1) mod k) 0) as [Hz|Hz];
    destruct (Z.eqb_spec ((n + 1) mod - k) 0) as [Hz'|Hz']; try done; exfalso.
  - apply Hz'. apply Z.mod_divide in Hz; [|done].
    apply Z.mod_divide; [lia|]. by apply Z.divide_opp_l.
  - apply Hz. apply Z.mod_divide in Hz'; [|lia].
    apply Z.mod_divide; [done|]. by apply Z.divide_opp_l.
Qed.

Lemma for_items_opp {S} (k : Z) template (items : list Entry) (n : Z)
    (body : Entry -> S -> M S) (s : S) (u : U) :
  for_items env (Some (- k)) template items n body s u
  = for_items env (Some k) template items n body s u.
Proof.
  revert n s u. induction items as [|item rest IH]; intros n s u; [done|].
  cbn [for_items]. unfold report. rewrite report_due_opp.
  apply bind_ext. intros [] u1. apply bind_ext. intros s' u2. apply IH.
Qed.

(** X12.  The sign of the report interval does not count: a loop over
    the progress reporter with the interval [-k] sends the messages,
    runs the body and ends as the same loop with the interval [k], so
    that a negative interval reports at the multiples of its absolute
    value. *)
Theorem reporter_ignores_sign {S} (k : Z) (items : list Entry) template
    (body : Entry -> S -> M S) (s : S) (u : U) :
  for_in env (status_iter (Some (- k)) items template) body s u
  = for_in env (status_iter (Some k) items template) body s u
  /\ forall n, report env (Some (- k)) template n u = report env (Some k) template n u.
Proof.
  split.
  - unfold for_in, status_iter. cbn [gen_exhausted gen_interval gen_template
      gen_iterator gen_n]. apply for_items_opp.
  - intros n. unfold report. by rewrite report_due_opp.
Qed.

Implicit Types (items : list Entry) (template : string).

Lemma next_yields interval template items (i : nat) item (u : U) :
  (forall message, send env message = None) ->
  match interval with Some k => 0 <= k | None => True end ->
  items !! i = Some item ->
  next env (gen_after interval template items i) u
  = Res (if notified interval (Z.of_nat i + 1)
         then [EStatus (percent template (str (Z.of_nat i + 1)))] else [])
        u (Ok (Some item, gen_after interval template items (S i))).
Proof.
  intros Hsend Hk Hi. unfold next, gen_after. cbn [gen_exhausted gen_iterator].
  rewrite (drop_S _ _ _ Hi). cbn [gen_n gen_interval gen_template].
  rewrite (bind_Ok _ _ _ _ _ _ (report_ok env Hsend _ _ _ _ Hk)).
  unfold ret. cbn [trace world value]. rewrite app_nil_r.
  replace (Z.of_nat i - 1 + 1 + 1) with (Z.of_nat i + 1) by lia.
  replace (Z.of_nat i - 1 + 1) with (Z.of_nat (S i) - 1) by lia.
  done.
Qed.

Lemma next_finishes interval template items (u : U) :
  (forall message, send env message = None) ->
  next env (gen_after interval template items (length items)) u
  = Res [EStatus ("Done: " +:+ percent template (str (Z.of_nat (length items))))]
        u (Ok (None, gen_finished interval template items)).
Proof.
  intros Hsend. unfold next, gen_after. cbn [gen_exhausted gen_iterator].
  rewrite drop_all. cbn [gen_n gen_interval gen_template]. unfold report_done.
  rewrite (bind_Ok _ _ _ _ _ _ (status_ok env Hsend _ _)).
  unfold ret. cbn [trace world value].
  by replace (Z.of_nat (length items) - 1 + 1) with (Z.of_nat (length items)) by lia.
Qed.

(** [k] calls of [next()] on the generator that has yielded [i]
    items. *)
Lemma pull_from interval template items (u : U) :
  (forall message, send env message = None) ->
  match interval with Some k => 0 <= k | None => True end ->
  forall (k i : nat),
    (i <= length items)%nat ->
    pull env k (gen_after interval template items i) u
    = Res (map (fun j => EStatus (percent template (str j)))
               (filter (fun j => notified interval j = true)
                       (seqZ (Z.of_nat i + 1)
                             (Z.of_nat (k `min` (length items - i)))))
           ++ (if decide (length items - i < k)%nat
               then [EStatus ("Done: " +:+
                              percent template (str (Z.of_nat (length items))))]
               else []))
          u (Ok (if decide (length items - i < k)%nat
                 then gen_finished interval template items
                 else gen_after interval template items (i + k))).
Proof.
  intros Hsend Hk. induction k as [|k IH]; intros i Hi.
  - cbn [pull]. rewrite Nat.min_0_l. case_decide; [lia|].
    by rewrite Nat.add_0_r.
  - cbn [pull]. destruct (decide (i = length items)) as [->|Hlt].
    + rewrite (bind_Ok _ _ _ _ _ _ (next_finishes _ _ _ _ Hsend)). cbn [snd].
      rewrite pull_exhausted by done. cbn [trace world value].
      rewrite Nat.sub_diag, Nat.min_0_r. case_decide; [|lia].
      by rewrite app_nil_r.
    + destruct (lookup_lt_is_Some_2 items i ltac:(lia)) as [item Hitem].
      rewrite (bind_Ok _ _ _ _ _ _ (next_yields _ _ _ _ _ _ Hsend Hk Hitem)).
      cbn [snd]. rewrite (IH (S i)) by lia. cbn [trace world value].
      replace (S k `min` (length items - i))%nat
        with (S (k `min` (length items - S i)))%nat by lia.
      rewrite (seqZ_cons (Z.of_nat i + 1)) by lia.
      rewrite filter_cons.
      replace (Z.succ (Z.of_nat i + 1)) with (Z.of_nat (S i) + 1) by lia.
      replace (Z.pred (Z.of_nat (S (k `min` (length items - S i)))))
        with (Z.of_nat (k `min` (length items - S i))) by lia.
      replace (S i + k)%nat with (i + S k)%nat by lia.
      f_equal.
      * rewrite app_assoc. f_equal.
        -- destruct (notified interval (Z.of_nat i + 1)); case_decide; done.
        -- repeat case_decide; try done; lia.
      * repeat case_decide; try done; lia.
Qed.

(** X13.  The progress reporter is lazy: with a channel that accepts
    every message and an interval that is not negative, [k] calls of
    [next()] send the periodic messages of the first [k] items only,
    and the final message is sent exactly when more items are asked for
    than there are; a consumer that stops at the last item, or before
    it, never has "Done" sent. *)
Theorem reporter_is_lazy interval items template (k : nat) (u : U) :
  (forall message, send env message = None) ->
  match interval with Some j => 0 <= j | None => True end ->
  let total := length items in
  let periodic j := EStatus (K:=K) (V:=V) (Params:=Params) (Buf:=Buf)
                            (percent template (str j)) in
  let final := EStatus (K:=K) (V:=V) (Params:=Params) (Buf:=Buf)
                       ("Done: " +:+ percent template (str (Z.of_nat total))) in
  pull env k (status_iter interval items template) u
  = Res (map periodic (notified_indices interval (Z.of_nat (k `min` total)))
         ++ (if decide (total < k)%nat then [final] else []))
        u (Ok (if decide (total < k)%nat
               then gen_finished interval template items
               else gen_after interval template items k)).
Proof.
  intros Hsend Hk total periodic final.
  pose proof (pull_from interval template items u Hsend Hk k 0 ltac:(lia)) as Hpull.
  rewrite Nat.sub_0_r in Hpull. exact Hpull.
Qed.

End StatusMore.

(** ** The params container *)

Section ParamsFacts.

Context {Val Packed : Type}.
Variable pack : Val -> Packed.
Variable unpack : Packed -> Val.

Implicit Types (d kwargs : gmap string Val).

Lemma Params_init_kwargs kwargs : Params_init kwargs = kwargs.
Proof. unfold Params_init, dict_update. apply (right_id_L ∅ (∪)). Qed.

Lemma Params_getstate_lookup d (k : string) :
  Params_getstate pack d !! k = if is_private k then None else pack <$> d !! k.
Proof.
  unfold Params_getstate. rewrite lookup_fmap.
  destruct (is_private k) eqn:Hp.
  - rewrite map_lookup_filter_None_2; [done|]. right. intros v _. simpl. congruence.
  - destruct (d !! k) as [v|] eqn:Hd.
    + by rewrite (map_lookup_filter_Some_2 _ _ _ v).
    + rewrite map_lookup_filter_None_2; [done|]. by left.
Qed.

(** X14.  Pickling a params object drops its private attributes and
    nothing else: for [unpack] that undoes [pack], the state holds the
    packed value of every attribute whose name does not start with an
    underscore and no other key, and a fresh object restored from the
    state has those attributes with their values; it is the original
    exactly when the original had no private attribute. *)
Theorem params_pickle_round_trip kwargs :
  (forall v, unpack (pack v) = v) ->
  let d := Params_init kwargs in
  let state := Params_getstate pack d in
  let restored := Params_setstate unpack state ∅ in
  (forall k, state !! k = if is_private k then None else pack <$> kwargs !! k)
  /\ (forall k, restored !! k = if is_private k then None else kwargs !! k)
  /\ (restored = d <-> forall k, is_private k = true -> kwargs !! k = None).
Proof.
  intros Hinverse d state restored.
  assert (forall k, restored !! k = if is_private k then None else kwargs !! k)
    as Hrestored.
  { intros k. subst restored state d. unfold Params_setstate, dict_update.
    rewrite (right_id_L ∅ (∪)), lookup_fmap, Params_getstate_lookup,
      Params_init_kwargs.
    destruct (is_private k); [done|].
    destruct (kwargs !! k) as [v|]; [|done]. simpl. by rewrite Hinverse. }
  split_and!.
  - intros k. subst state d. by rewrite Params_getstate_lookup, Params_init_kwargs.
  - done.
  - subst d. rewrite Params_init_kwargs. split.
    + intros Heq k Hp. rewrite <- Heq, Hrestored. by rewrite Hp.
    + intros Hpublic. apply map_eq. intros k. rewrite Hrestored.
      destruct (is_private k) eqn:Hp; [|done]. by rewrite Hpublic.
Qed.

End ParamsFacts.

(** ** The further properties on the word count *)

Section PureJobFacts.

Import WordCount PureJob.

Local Abbreviation words := ["a"; "bb"; "c"; "dd"; "e"].


(** X4 on the word count without its reduce function. *)
Lemma reduce_without_function_witness :
  (forall f, reduce map_only <> Native f)
  /\ (let r := Worker_reduce env map_only (reduce_task [["x"; "y"]; ["z"]])
                 "params" 0%nat in
      value r <> Ok tt
      /\ (exists statuses,
            trace r = EInit ReduceMode "params" :: statuses
            /\ Forall is_status statuses)
      /\ reduce_calls (trace r) = []
      /\ pipeline_adds (trace r) = []
      /\ function_adds (trace r) = []).
Proof.
  split; [intros f; discriminate|].
  apply (reduce_without_function env map_only (reduce_task [["x"; "y"]; ["z"]])
           "params" 0%nat).
  intros f. discriminate.
Defined.



(** X7 on the word count with a partition count of 0. *)
Lemma map_without_partitions_one_buffer_witness :
  truthy_int (partitions worker0) = false
  /\ (let r := Worker_map env worker0 (map_task words) "params" 0%nat in
      Forall (fun item => fst item = None) (final_flushes (trace r))
      /\ (length (final_flushes (trace r)) <= 1)%nat).
Proof.
  split; [reflexivity|].
  apply (map_without_partitions_one_buffer env worker0 (map_task words)
           "params" 0%nat).
  reflexivity.
Defined.

(** X8 on the word count. *)
Lemma map_combines_per_partition_witness :
  combiner combining = Some sum_combiner
  /\ map_ combining = Native tally_word
  /\ value (Worker_map env combining (map_task words) "params" 0%nat) = Ok tt
  /\ final_flushes (trace (Worker_map env combining (map_task words) "params" 0%nat))
     = [(Some "1", [1; 1; 1]); (Some "0", [1; 1])].
Proof.
  split; [reflexivity|]. split; [reflexivity|]. split; [reflexivity|].
  apply (map_combines_per_partition env combining (map_task words) "params" 0%nat
           tally_word sum_combiner parity one_each keep).
  - reflexivity.
  - reflexivity.
  - intros entry u. reflexivity.
  - intros key n u [= <-]. reflexivity.
  - intros key val buf u. exists None. reflexivity.
  - reflexivity.
Defined.

(** X9 on the chain of three stages. *)
Lemma chain_one_handle_per_stage_witness :
  ClassicFile_init "raw://x" [S1; S2; S3] "params" None None 0%nat
  = Res [EStream None None "raw://x" None;
         EStream (Some "S1") None "raw://x" None;
         EStream (Some "S2") None "raw://x.gz" (Some "params")]
        0%nat (Ok file)
  /\ length (fds file) = 3%nat
  /\ (fds_last file = None <-> [S1; S2; S3] = []).
Proof.
  split; [reflexivity|].
  destruct (chain_one_handle_per_stage "raw://x" [S1; S2; S3] "params" None None
              0%nat _ 0%nat file eq_refl) as (Hfds & _ & Hlast).
  split; [exact Hfds | exact Hlast].
Defined.

(** X11 on a map input with one input stream and a reader. *)
Lemma input_chain_reads_the_reader_witness :
  self_open_hook keys = open_hook
  /\ exists t u' chain before,
       opener keys MapMode DirIn "params" "raw://x" 0%nat
       = Res t u' (Ok {| fds := before ++ [Some (closes "S3"); Some (closes "S3")] |})
       /\ fds chain = before ++ [Some (closes "S3")]
       /\ length t = 3%nat.
Proof.
  split; [reflexivity|].
  destruct (input_chain_reads_the_reader keys MapMode "params" "raw://x" 0%nat
              _ _ _ (or_introl eq_refl) eq_refl)
    as (t0 & u0 & chain & ev & Hchain & _ & _ & _ & _ & Hne).
  exists [EStream None None "raw://x" None;
          EStream (Some "S1") None "raw://x" (Some "params");
          EStream (Some "S3") (Some 42) "raw://x" None],
    0%nat, chain, [Some (closes "S1")].
  split; [reflexivity|]. split; [|reflexivity].
  injection Hchain as _ _ <-. reflexivity.
Defined.

(** X13 on five entries and an interval of 2: four calls of
    [next()], and six. *)
Lemma reporter_is_lazy_witness :
  (forall message, send env message = None)
  /\ pull env 4 (status_iter (Some 2) words "%s entries mapped") 0%nat
     = Res [EStatus "2 entries mapped"; EStatus "4 entries mapped"] 0%nat
           (Ok (gen_after (Some 2) "%s entries mapped" words 4))
  /\ pull env 6 (status_iter (Some 2) words "%s entries mapped") 0%nat
     = Res [EStatus "2 entries mapped"; EStatus "4 entries mapped";
            EStatus "Done: 5 entries mapped"] 0%nat
           (Ok (gen_finished (Some 2) "%s entries mapped" words)).
Proof.
  split; [reflexivity|]. split.
  - exact (reporter_is_lazy env (Some 2) words "%s entries mapped" 4 0%nat
             (fun _ => eq_refl) ltac:(simpl; lia)).
  - exact (reporter_is_lazy env (Some 2) words "%s entries mapped" 6 0%nat
             (fun _ => eq_refl) ltac:(simpl; lia)).
Defined.

(** X14 on a params object with a private attribute. *)
Lemma params_pickle_round_trip_witness :
  (forall v, Z.pred (Z.succ v) = v)
  /\ Params_setstate Z.pred (Params_getstate Z.succ (Params_init attributes)) ∅
       !! "c" = Some 0
  /\ Params_setstate Z.pred (Params_getstate Z.succ (Params_init attributes)) ∅
       !! "_seen" = None.
Proof.
  split; [intros v; lia|].
  destruct (params_pickle_round_trip Z.succ Z.pred attributes
              ltac:(intros v; lia)) as (_ & Hrestored & _).
  split; [exact (Hrestored "c") | exact (Hrestored "_seen")].
Defined.

End PureJobFacts.

